(** * TLA+ completion provider (src/completions/tlaCompletions.ts)

    A shallow embedding of the completion provider of the TLA+ extension:
    the keyword, operator and module catalogs, the regular-expression tests
    that classify the text before the cursor, the assembly of the completion
    list, and the lazy resolution of the inserted text. *)

From Stdlib Require Import NArith String Ascii.
From stdpp Require Import base option list gmap.

Set Default Proof Using "Type".
Local Open Scope N_scope.

(** ** JavaScript strings

    A JavaScript string is a sequence of UTF-16 code units; [length],
    [substring], [startsWith] and the regular expressions of this file (none
    has the [u] flag) all work on code units. *)

Module JS.

Definition char : Type := N.
Definition jsstring : Type := list char.

(** An ASCII literal of the source, as code units. *)
Definition lit (s : string) : jsstring :=
  map N_of_ascii (list_ascii_of_string s).
Arguments lit s%_string_scope.

(** [s.substring(n)] for a literal [n >= 0]. *)
Definition substring_from (n : nat) (s : jsstring) : jsstring := drop n s.

(** [s.startsWith(p)]. *)
Fixpoint startsWith (p s : jsstring) : bool :=
  match p, s with
  | [], _ => true
  | _ :: _, [] => false
  | a :: p', b :: s' => (a =? b) && startsWith p' s'
  end.

Definition in_range (lo hi c : char) : bool := (lo <=? c) && (c <=? hi).

(** [\d] *)
Definition is_digit (c : char) : bool := in_range 48 57 c.
(** [[a-zA-Z]] *)
Definition is_alpha (c : char) : bool := in_range 97 122 c || in_range 65 90 c.
(** [\w] is [[A-Za-z0-9_]] without the [u] and [i] flags. *)
Definition is_word (c : char) : bool :=
  in_range 65 90 c || in_range 97 122 c || in_range 48 57 c || (c =? 95).
(** Line terminators: LF, CR, U+2028, U+2029. *)
Definition is_line_terminator (c : char) : bool :=
  (c =? 10) || (c =? 13) || (c =? 0x2028) || (c =? 0x2029).
(** [.] without the [s] flag: anything but a line terminator. *)
Definition is_dot (c : char) : bool := negb (is_line_terminator c).
(** [\s]: WhiteSpace and LineTerminator of ECMAScript. *)
Definition is_space (c : char) : bool :=
  in_range 9 13 c || (c =? 32) || (c =? 0xA0) || (c =? 0x1680)
  || in_range 0x2000 0x200A c || (c =? 0x2028) || (c =? 0x2029)
  || (c =? 0x202F) || (c =? 0x205F) || (c =? 0x3000) || (c =? 0xFEFF).

Definition is_char (a : char) (c : char) : bool := c =? a.

Definition backslash : char := 92.
Definition slash : char := 47.
Definition space : char := 32.
Definition lt_sign : char := 60.
Definition gt_sign : char := 62.
Definition dot_sign : char := 46.

(** [[<>\d.a-zA-Z]] *)
Definition is_step_label (c : char) : bool :=
  (c =? lt_sign) || (c =? gt_sign) || is_digit c || (c =? dot_sign)
  || in_range 97 122 c || in_range 65 90 c.

(** *** The regular expressions of the provider

    Every pattern of the source is a sequence of single-character classes,
    each taken once, [*] or [+] times, with at most one negative look-behind
    on one character, and ends with [$]. [x+] is [One x; Star x]. *)
Inductive atom : Type :=
| One (p : char -> bool)
| Star (p : char -> bool)
| NotBehind (p : char -> bool).

(** Backtracking match of the atoms [r] followed by [$] against the rest [s]
    of the input, [prev] being the code unit before the current position
    ([None] at the start of the input). *)
Fixpoint matchSeq (r : list atom) (prev : option char) (s : jsstring)
  {struct r} : bool :=
  match r with
  | [] => match s with [] => true | _ :: _ => false end
  | One p :: r' =>
      match s with
      | [] => false
      | c :: s' => p c && matchSeq r' (Some c) s'
      end
  | Star p :: r' =>
      (fix star (prev : option char) (s : jsstring) {struct s} : bool :=
         match s with
         | [] => matchSeq r' prev []
         | c :: s' => (p c && star (Some c) s') || matchSeq r' prev s
         end) prev s
  | NotBehind p :: r' =>
      negb (match prev with Some c => p c | None => false end)
      && matchSeq r' prev s
  end.

(** [/^r$/.test(s)]: the [g] flag has no effect, the literal being evaluated
    anew (with [lastIndex] 0) at every call. *)
Definition test (r : list atom) (s : jsstring) : bool := matchSeq r None s.

(** [s.match(/r$/)] for a pattern without [^]: the leftmost position where
    the atoms match up to the end of the input. The result is the index of
    the match and [match[0]], which is the rest of the input. *)
Fixpoint searchFrom (r : list atom) (prev : option char) (i : nat)
  (s : jsstring) : option (nat * jsstring) :=
  if matchSeq r prev s then Some (i, s)
  else match s with
       | [] => None
       | c :: s' => searchFrom r (Some c) (S i) s'
       end.

Definition match_ (r : list atom) (s : jsstring) : option (nat * jsstring) :=
  searchFrom r None 0%nat s.

End JS.

(** ** The part of the editor API the provider uses *)

Module vscode.

Record Position : Type := mkPosition { line : nat; character : nat }.

Definition isBefore (p q : Position) : bool :=
  (line p <? line q)%nat
  || ((line p =? line q)%nat && (character p <? character q)%nat).

Record Range : Type := Range_of { start : Position; end_ : Position }.

(** [new vscode.Range(start, end)]: the constructor swaps its arguments
    unless [start] is before [end]. *)
Definition mkRange (s e : Position) : Range :=
  if isBefore s e then Range_of s e else Range_of e s.

(** [vscode.CompletionItemKind] *)
Inductive CompletionItemKind : Type :=
| Text | Method | Function | Constructor | Field | Variable_ | Class
| Interface | Module | Property | Unit | Value | Enum | Keyword | Snippet
| Color | File | Reference | Folder | EnumMember | Constant | Struct
| Event | Operator | TypeParameter | User | Issue.

(** [vscode.SymbolKind]; [Variable] is a reserved word here, hence
    [Variable_]. *)
Module SymbolKind.
Inductive t : Type :=
| File | Module | Namespace | Package | Class | Method | Property | Field
| Constructor | Enum | Interface | Function | Variable_ | Constant
| String | Number | Boolean | Array | Object | Key | Null | EnumMember
| Struct | Event | Operator | TypeParameter.
End SymbolKind.

(** The fields of [vscode.CompletionItem] this code reads or writes. The
    labels of this provider are all plain strings. *)
Record CompletionItem : Type := mkItem {
  label : JS.jsstring;
  kind : option CompletionItemKind;
  insertText : option JS.jsstring;
  range : option Range
}.

(** [new vscode.CompletionItem(label, kind)] *)
Definition newItem (l : JS.jsstring) (k : CompletionItemKind) : CompletionItem :=
  mkItem l (Some k) None None.

Record CompletionList : Type := mkList {
  items : list CompletionItem;
  isIncomplete : bool
}.

(** [vscode.ProviderResult<T>]: a value, or [undefined]/[null]. *)
Definition ProviderResult (T : Type) : Type := option T.

Record SymbolInformation : Type := mkSymbol {
  name : JS.jsstring;
  symbolKind : SymbolKind.t
}.

(** A text document: its identity and the text of its lines. *)
Record TextDocument : Type := mkDocument {
  uri : nat;
  lineAt : nat -> JS.jsstring
}.

End vscode.

Import JS vscode.

#[global] Instance Position_eq_dec : EqDecision Position.
Proof. solve_decision. Defined.
#[global] Instance Range_eq_dec : EqDecision Range.
Proof. solve_decision. Defined.
#[global] Instance CompletionItemKind_eq_dec : EqDecision CompletionItemKind.
Proof. solve_decision. Defined.
#[global] Instance CompletionItem_eq_dec : EqDecision CompletionItem.
Proof. solve_decision. Defined.

(** ** Collaborators outside this file *)

(** The interface of [TlaDocumentInfo] (../model/documentInfo) as the
    provider uses it: the symbols of the document, possibly undefined, and
    whether a position lies in the PlusCal block. *)
Record TlaDocumentInfo : Type := mkDocInfo {
  symbols : option (list SymbolInformation);
  isPlusCalAt : Position -> bool
}.

(** [TlaDocumentInfos.get(uri)] *)
Record TlaDocumentInfos : Type := mkDocInfos {
  get : nat -> TlaDocumentInfo
}.

(** Modelled from the spec: [getPrevText] of ./completions is not among the
    sources. Section 4.1 of the specification describes its result as "the
    full text of the current line from its start up to the cursor". *)
Definition getPrevText (document : TextDocument) (position : Position)
  : jsstring :=
  take (character position) (lineAt document (line position)).

(** ** Catalogs *)

Local Open Scope string_scope.

Definition TLA_OPERATORS : list jsstring := map lit [
  "land"; "lor"; "implies";
  "lnot"; "equiv"; "triangleq";
  "in"; "notin"; "ne";
  "ll"; "gg"; "[]";
  "leq"; "geq"; "<>";
  "~>"; "prec"; "succ";
  "-+->"; "preceq"; "succeq";
  "div"; "subseteq"; "supseteq";
  "cdot"; "subset"; "supset";
  "o"; "sqsubset"; "sqsupset";
  "bullet"; "sqsubseteq"; "sqsupseteq";
  "star"; "vdash"; "dashv";
  "bigcirc"; "models"; "vDash";
  "sim"; "maps"; "leftarrow";
  "simeq"; "cap"; "cup";
  "asymp"; "sqcap"; "sqcup";
  "approx"; "oplus"; "uplus";
  "cong"; "ominus"; "X";
  "doteq"; "odot"; "wr";
  "otimes"; "propto"; "oslash";
  "E"; "A"; "EE"; "AA"
].

(** The entries given to [new Map([...])], glyphs as UTF-16 code units. *)
Definition TLA_UNICODE_OPERATORS_entries : list (jsstring * jsstring) := [
    (lit "land", [0x2227]); (lit "lor", [0x2228]); (lit "implies", [0x21D2]);
    (lit "lnot", [0x00AC]); (lit "equiv", [0x2261]); (lit "triangleq", [0x225C]);
    (lit "in", [0x2208]); (lit "notin", [0x2209]); (lit "ne", [0x2260]);
    (lit "ll", [0x226A]); (lit "gg", [0x226B]); (lit "[]", [0x25A1]);
    (lit "leq", [0x2264]); (lit "geq", [0x2265]); (lit "<>", [0x25CA]);
    (lit "~>", [0x219D]); (lit "prec", [0x227A]); (lit "succ", [0x227B]);
    (lit "-+->", [0x21F8]); (lit "preceq", [0x2AAF]); (lit "succeq", [0x2AB0]);
    (lit "div", [0x00F7]); (lit "subseteq", [0x2286]); (lit "supseteq", [0x2287]);
    (lit "cdot", [0x00B7]); (lit "subset", [0x2282]); (lit "supset", [0x2283]);
    (lit "o", [0x25CB]); (lit "sqsubset", [0x228F]); (lit "sqsupset", [0x2290]);
    (lit "bullet", [0x2022]); (lit "sqsubseteq", [0x2291]); (lit "sqsupseteq", [0x2292]);
    (lit "star", [0x22C6]); (lit "vdash", [0x22A2]); (lit "dashv", [0x22A3]);
    (lit "bigcirc", [0x25EF]); (lit "models", [0x22A8]); (lit "vDash", lit "=|");
    (lit "sim", [0x223C]); (lit "maps", [0x2192]); (lit "leftarrow", [0x2190]);
    (lit "simeq", [0x2243]); (lit "cap", [0x2229]); (lit "cup", [0x222A]);
    (lit "asymp", [0x224D]); (lit "sqcap", [0x2293]); (lit "sqcup", [0x2294]);
    (lit "approx", [0x2248]); (lit "oplus", [0x2295]); (lit "uplus", [0x228E]);
    (lit "cong", [0x2245]); (lit "ominus", [0x2296]); (lit "X", [0x00D7]);
    (lit "doteq", [0x2250]); (lit "odot", [0x2299]); (lit "wr", [0x2240]);
    (lit "otimes", [0x2297]); (lit "propto", [0x221D]); (lit "oslash", [0x2298]);
    (lit "E", [0x2203]); (lit "A", [0x2200]); (lit "EE", [0x2203]);
    (lit "AA", [0x2200]);
    (* Repeats *)
    (lit "times", [0x00D7]); (lit "circ", [0x2218]);
    (lit "intersect", [0x2229]); (lit "union", [0x222A])
].

(** [new Map(entries)] inserts the entries in order, a later entry replacing
    an earlier one with the same key. *)
Definition new_Map (entries : list (jsstring * jsstring))
  : gmap jsstring jsstring :=
  foldl (fun m kv => <[kv.1 := kv.2]> m) ∅ entries.

Definition TLA_UNICODE_OPERATORS : gmap jsstring jsstring :=
  new_Map TLA_UNICODE_OPERATORS_entries.

Definition TLA_STARTING_KEYWORDS : list jsstring := map lit [
  "EXTENDS"; "VARIABLE"; "VARIABLES"; "CONSTANT"; "CONSTANTS"; "ASSUME";
  "ASSUMPTION"; "AXIOM"; "THEOREM";
  "PROOF"; "LEMMA"; "PROPOSITION"; "COROLLARY"; "RECURSIVE"
].
Definition TLA_PROOF_STARTING_KEYWORDS : list jsstring := map lit [
  "DEFINE"; "QED"; "HIDE"; "SUFFICES"; "PICK"; "HAVE"; "TAKE"; "WITNESS"
].
Definition TLA_OTHER_KEYWORDS : list jsstring := map lit [
  "LET"; "IN"; "EXCEPT"; "ENABLED"; "UNCHANGED"; "LAMBDA"; "DOMAIN";
  "CHOOSE"; "LOCAL";
  "INSTANCE"; "WITH"; "SUBSET"; "UNION"; "SF_"; "WF_"; "USE"; "BY"; "DEF";
  "DEFS"; "PROVE"; "OBVIOUS";
  "NEW"; "ACTION"; "OMITTED"; "ONLY"; "STATE"; "TEMPORAL";
  (* -- control keywords *)
  "IF"; "THEN"; "ELSE"; "CASE"; "OTHER";
  (* -- other *)
  "BOOLEAN"
].
Definition TLA_CONSTANTS : list jsstring := map lit [ "TRUE"; "FALSE" ].
Definition TLA_STD_MODULES : list jsstring := map lit [
  "Bags"; "FiniteSets"; "Integers"; "Naturals"; "Randomization"; "Reals";
  "RealTime"; "Sequences"; "TLC"
].

Local Close Scope string_scope.

(** ** Shared completion items

    The item arrays are built once, when the module is loaded, and every
    request returns the same item objects. [resolveCompletionItem] writes the
    [insertText] of the object it receives, so the contents of the arrays
    change over time: a [Catalog] is their current state. *)

Record Catalog : Type := mkCatalog {
  TLA_STARTING_KEYWORD_ITEMS : list CompletionItem;
  TLA_PROOF_STARTING_KEYWORD_ITEMS : list CompletionItem;
  TLA_OTHER_KEYWORD_ITEMS : list CompletionItem;
  TLA_CONST_ITEMS : list CompletionItem;
  TLA_OPERATOR_ITEMS : list CompletionItem;
  TLA_STD_MODULE_ITEMS : list CompletionItem
}.

(** The arrays as the module initialisation builds them. *)
Definition initial_catalog : Catalog := {|
  TLA_STARTING_KEYWORD_ITEMS :=
    map (fun w => newItem w Keyword) TLA_STARTING_KEYWORDS;
  TLA_PROOF_STARTING_KEYWORD_ITEMS :=
    map (fun w => newItem w Keyword) TLA_PROOF_STARTING_KEYWORDS;
  TLA_OTHER_KEYWORD_ITEMS :=
    map (fun w => newItem w Keyword) TLA_OTHER_KEYWORDS;
  TLA_CONST_ITEMS := map (fun w => newItem w Constant) TLA_CONSTANTS;
  TLA_OPERATOR_ITEMS :=
    map (fun w => newItem (backslash :: w) Operator) TLA_OPERATORS;
  TLA_STD_MODULE_ITEMS := map (fun m => newItem m Module) TLA_STD_MODULES
|}.

(** [TLA_OTHER_KEYWORD_ITEMS.concat(TLA_CONST_ITEMS)]: a new array of the
    same item objects. *)
Definition TLA_INNER_ITEMS (cat : Catalog) : list CompletionItem :=
  TLA_OTHER_KEYWORD_ITEMS cat ++ TLA_CONST_ITEMS cat.

(** ** Resolution of the inserted text *)

(** Truthiness of [Map.get]'s result: [undefined] and the empty string are
    falsy. *)
Definition truthy (o : option jsstring) : bool :=
  match o with
  | Some (_ :: _) => true
  | _ => false
  end.

Definition set_insertText (item : CompletionItem) (t : jsstring)
  : CompletionItem :=
  mkItem (label item) (kind item) (Some t) (range item).

Definition set_range (item : CompletionItem) (r : Range) : CompletionItem :=
  mkItem (label item) (kind item) (insertText item) (Some r).

Definition resolveOperatorCompletion (item : CompletionItem)
  (useUnicode : bool) : CompletionItem :=
  let operatorName := substring_from 1 (label item) in
  let unicodeSymbol := TLA_UNICODE_OPERATORS !! operatorName in
  set_insertText item
    ((if useUnicode && truthy unicodeSymbol
      then default [] unicodeSymbol
      else backslash :: operatorName) ++ [space]).

(** [enableUnicodeAutocomplete] is read from the configuration once, when
    the module is loaded; it is a parameter here. *)
Definition resolveCompletionItem (enableUnicodeAutocomplete : bool)
  (item : CompletionItem) : ProviderResult CompletionItem :=
  match kind item with
  | Some Keyword => Some (set_insertText item (label item ++ [space]))
  | Some Operator =>
      Some (resolveOperatorCompletion item enableUnicodeAutocomplete)
  | _ => Some item
  end.

(** ** The provider *)

Definition mapKind (symbolKind : SymbolKind.t) : CompletionItemKind :=
  match symbolKind with
  | SymbolKind.Field => Field
  | SymbolKind.Variable_ => Variable_
  | SymbolKind.Function => Function
  | SymbolKind.Method => Method
  | SymbolKind.Namespace | SymbolKind.Module => Module
  | SymbolKind.Constant => Constant
  | _ => Text
  end.

(** [/^.*(?<!\/)\\\w*$/g] *)
Definition re_isOperator : list atom :=
  [Star is_dot; NotBehind (is_char slash); One (is_char backslash);
   Star is_word].
(** [/\\\w*$/], the pattern of [prevText.match]; the source puts the word
    characters in a capture group that it does not read. *)
Definition re_backslash_word : list atom :=
  [One (is_char backslash); Star is_word].
(** [/^\s*<\d+>[<>\d.a-zA-Z]*\s+[a-zA-Z]*$/g] *)
Definition re_isProofStep : list atom :=
  [Star is_space; One (is_char lt_sign); One is_digit; Star is_digit;
   One (is_char gt_sign); Star is_step_label; One is_space; Star is_space;
   Star is_alpha].
(** [/^\s*[a-zA-Z]*$/g] *)
Definition re_isNewLine : list atom := [Star is_space; Star is_alpha].

(** The cancellation token and the completion context are not used. *)
Definition provideCompletionItems (cat : Catalog) (docInfos : TlaDocumentInfos)
  (document : TextDocument) (position : Position)
  : ProviderResult CompletionList :=
  let prevText := getPrevText document position in
  if startsWith (lit "EXTENDS") prevText then
    Some (mkList (TLA_STD_MODULE_ITEMS cat) false)
  else if startsWith (lit "CONSTANT") prevText
          || startsWith (lit "RECURSIVE") prevText then
    Some (mkList [] false)
  else
    let isOperator := test re_isOperator prevText in
    if isOperator then
      match match_ re_backslash_word prevText with
      | Some (_, match0) =>
          let backslashCol := (length prevText - length match0)%nat in
          let range :=
            mkRange (mkPosition (line position) backslashCol) position in
          let items :=
            map (fun op =>
                   let item := newItem (backslash :: op) Operator in
                   set_range item range) TLA_OPERATORS in
          Some (mkList items false)
      | None => Some (mkList (TLA_OPERATOR_ITEMS cat) false)
      end
    else
      let docInfo := get docInfos (uri document) in
      let symbols := default [] (symbols docInfo) in
      let symbolInfos :=
        map (fun s => newItem (name s) (mapKind (symbolKind s))) symbols in
      let items := TLA_INNER_ITEMS cat ++ symbolInfos in
      let items :=
        if negb (isPlusCalAt docInfo position) then
          let isProofStep := test re_isProofStep prevText in
          let isNewLine := test re_isNewLine prevText in
          if isProofStep then items ++ TLA_PROOF_STARTING_KEYWORD_ITEMS cat
          else if isNewLine then items ++ TLA_STARTING_KEYWORD_ITEMS cat
          else items
        else items in
      Some (mkList items false).

(** ** Resolutions of shared items

    The editor hands an item of a returned list back to
    [resolveCompletionItem]; when it is one of the shared objects, the array
    holding it sees the change. *)

Inductive shared_array : Type :=
| StartingKeywordItems | ProofStartingKeywordItems | OtherKeywordItems
| ConstItems | OperatorItems | StdModuleItems.

#[global] Instance shared_array_eq_dec : EqDecision shared_array.
Proof. solve_decision. Defined.

Definition read_array (a : shared_array) (cat : Catalog)
  : list CompletionItem :=
  match a with
  | StartingKeywordItems => TLA_STARTING_KEYWORD_ITEMS cat
  | ProofStartingKeywordItems => TLA_PROOF_STARTING_KEYWORD_ITEMS cat
  | OtherKeywordItems => TLA_OTHER_KEYWORD_ITEMS cat
  | ConstItems => TLA_CONST_ITEMS cat
  | OperatorItems => TLA_OPERATOR_ITEMS cat
  | StdModuleItems => TLA_STD_MODULE_ITEMS cat
  end.

Definition write_array (a : shared_array) (l : list CompletionItem)
  (cat : Catalog) : Catalog :=
  match a with
  | StartingKeywordItems =>
      mkCatalog l (TLA_PROOF_STARTING_KEYWORD_ITEMS cat)
        (TLA_OTHER_KEYWORD_ITEMS cat) (TLA_CONST_ITEMS cat)
        (TLA_OPERATOR_ITEMS cat) (TLA_STD_MODULE_ITEMS cat)
  | ProofStartingKeywordItems =>
      mkCatalog (TLA_STARTING_KEYWORD_ITEMS cat) l
        (TLA_OTHER_KEYWORD_ITEMS cat) (TLA_CONST_ITEMS cat)
        (TLA_OPERATOR_ITEMS cat) (TLA_STD_MODULE_ITEMS cat)
  | OtherKeywordItems =>
      mkCatalog (TLA_STARTING_KEYWORD_ITEMS cat)
        (TLA_PROOF_STARTING_KEYWORD_ITEMS cat) l (TLA_CONST_ITEMS cat)
        (TLA_OPERATOR_ITEMS cat) (TLA_STD_MODULE_ITEMS cat)
  | ConstItems =>
      mkCatalog (TLA_STARTING_KEYWORD_ITEMS cat)
        (TLA_PROOF_STARTING_KEYWORD_ITEMS cat) (TLA_OTHER_KEYWORD_ITEMS cat)
        l (TLA_OPERATOR_ITEMS cat) (TLA_STD_MODULE_ITEMS cat)
  | OperatorItems =>
      mkCatalog (TLA_STARTING_KEYWORD_ITEMS cat)
        (TLA_PROOF_STARTING_KEYWORD_ITEMS cat) (TLA_OTHER_KEYWORD_ITEMS cat)
        (TLA_CONST_ITEMS cat) l (TLA_STD_MODULE_ITEMS cat)
  | StdModuleItems =>
      mkCatalog (TLA_STARTING_KEYWORD_ITEMS cat)
        (TLA_PROOF_STARTING_KEYWORD_ITEMS cat) (TLA_OTHER_KEYWORD_ITEMS cat)
        (TLA_CONST_ITEMS cat) (TLA_OPERATOR_ITEMS cat) l
  end.

(** One resolution of the [i]-th object of array [a]. *)
Inductive resolve_step (enable : bool) : Catalog -> Catalog -> Prop :=
| resolve_shared (cat : Catalog) (a : shared_array) (i : nat)
    (item item' : CompletionItem) :
    read_array a cat !! i = Some item ->
    resolveCompletionItem enable item = Some item' ->
    resolve_step enable cat (write_array a (<[i := item']> (read_array a cat)) cat).

(** The catalogs the provider can see: the initial one after any number of
    resolutions. *)
Definition reachable (enable : bool) (cat : Catalog) : Prop :=
  rtc (resolve_step enable) initial_catalog cat.

(** ** Vocabulary of the statements *)

(** The code unit before the position reached after reading [a], starting
    with [prev] before it. *)
Definition last_or (prev : option char) (a : jsstring) : option char :=
  match last a with
  | Some c => Some c
  | None => prev
  end.

(** The code units an atom can consume. *)
Definition atom_accepts (a : atom) (c : char) : bool :=
  match a with
  | One p | Star p => p c
  | NotBehind _ => false
  end.

Definition accepted_by (r : list atom) (c : char) : bool :=
  existsb (fun a => atom_accepts a c) r.

(** The items made from the symbols of the document ([symbolInfos] in
    [provideCompletionItems]). *)
Definition symbolInfos (docInfos : TlaDocumentInfos) (document : TextDocument)
  : list CompletionItem :=
  map (fun s => newItem (name s) (mapKind (symbolKind s)))
      (default [] (symbols (get docInfos (uri document)))).

(** An item of kind Keyword whose label is one of [ws]. *)
Definition keyword_item_of (ws : list jsstring) (it : CompletionItem) : Prop :=
  kind it = Some Keyword /\ label it ∈ ws.

(** The first two rules of the provider: the prefix starts with EXTENDS,
    CONSTANT or RECURSIVE. *)
Definition starts_with_declaration (prevText : jsstring) : bool :=
  startsWith (lit "EXTENDS") prevText
  || startsWith (lit "CONSTANT") prevText
  || startsWith (lit "RECURSIVE") prevText.

(** An item is in the state the module initialisation gave it, or in the
    state a resolution leaves it in. *)
Definition fresh_or_resolved (enable : bool) (item0 item : CompletionItem)
  : Prop :=
  item = item0 \/ resolveCompletionItem enable item0 = Some item.

(** [t] ends with a space that comes right after a code unit other than
    the space (checked from the end of [t]). *)
Definition one_trailing_space (t : jsstring) : bool :=
  match reverse t with
  | c :: c' :: _ => (c =? space) && negb (c' =? space)
  | _ => false
  end.

(** What the provider fixes of an item: its label and its kind. *)
Definition shape (it : CompletionItem)
  : jsstring * option CompletionItemKind :=
  (label it, kind it).

(** Every shared item is fresh or resolved. *)
Definition catalog_inv (enable : bool) (cat : Catalog) : Prop :=
  forall a, Forall2 (fresh_or_resolved enable)
              (read_array a initial_catalog) (read_array a cat).

(** *** Sample inputs, after the set-up of the test suite: a one-line
    document, the cursor at the end of the line, and a document info with
    the single symbol Foo of kind Field. *)

Definition document_of_line (s : jsstring) : TextDocument :=
  mkDocument 0 (fun _ => s).

Definition end_of_line (s : jsstring) : Position :=
  mkPosition 0 (length s).

Definition sample_docInfos (inPlusCal : bool) : TlaDocumentInfos :=
  mkDocInfos (fun _ =>
    mkDocInfo (Some [mkSymbol (lit "Foo") SymbolKind.Field])
              (fun _ => inPlusCal)).

(** The catalog after the editor has resolved the first general keyword,
    LET. *)
Definition catalog_after_LET : Catalog :=
  write_array OtherKeywordItems
    (<[0%nat := set_insertText (newItem (lit "LET") Keyword) (lit "LET ")]>
       (TLA_OTHER_KEYWORD_ITEMS initial_catalog))
    initial_catalog.

(** The state of an item object after a call of [resolveCompletionItem];
    the call returns the object it was given. *)
Definition resolved (enable : bool) (item : CompletionItem) : CompletionItem :=
  default item (resolveCompletionItem enable item).

(** The catalog after the editor has resolved the [i]-th object of the
    shared array [a]; there is no such call for an index out of range. *)
Definition resolve_at (enable : bool) (a : shared_array) (i : nat)
  (cat : Catalog) : Catalog :=
  write_array a (alter (resolved enable) i (read_array a cat)) cat.

(** What the editor can show of a list before any resolution: the label,
    kind and range of every item, in order, and the completeness flag. *)
Definition visible (l : CompletionList)
  : list (jsstring * option CompletionItemKind * option Range) * bool :=
  (map (fun it => (label it, kind it, range it)) (items l), isIncomplete l).

(** * Properties *)

(** ** Regular expressions *)

Section Regex.

Implicit Types (p : char -> bool) (r : list atom) (s a w : jsstring).
Implicit Types (prev : option char).

Lemma matchSeq_star_eq p r prev s :
  matchSeq (Star p :: r) prev s =
  match s with
  | [] => matchSeq r prev []
  | c :: s' => (p c && matchSeq (Star p :: r) (Some c) s') || matchSeq r prev s
  end.
Proof. destruct s; reflexivity. Qed.

Lemma matchSeq_one_eq p r prev s :
  matchSeq (One p :: r) prev s =
  match s with
  | [] => false
  | c :: s' => p c && matchSeq r (Some c) s'
  end.
Proof. reflexivity. Qed.

Lemma matchSeq_notbehind_eq p r prev s :
  matchSeq (NotBehind p :: r) prev s =
  negb (match prev with Some c => p c | None => false end)
  && matchSeq r prev s.
Proof. reflexivity. Qed.

Lemma last_or_nil prev : last_or prev [] = prev.
Proof. reflexivity. Qed.

Lemma last_or_cons prev c a : last_or prev (c :: a) = last_or (Some c) a.
Proof.
  unfold last_or. destruct a as [|d a]; [reflexivity|].
  rewrite last_cons. by destruct (last (d :: a)) eqn:E.
Qed.

(** A star may consume any run of its class. *)
Lemma star_intro p r a : forall prev s,
  forallb p a = true ->
  matchSeq r (last_or prev a) s = true ->
  matchSeq (Star p :: r) prev (a ++ s) = true.
Proof.
  induction a as [|c a IH]; intros prev s Ha Hm.
  - rewrite last_or_nil in Hm. simpl app. rewrite matchSeq_star_eq.
    destruct s; [exact Hm|]. by rewrite Hm, orb_true_r.
  - simpl in Ha. apply andb_true_iff in Ha as [Hc Ha].
    rewrite last_or_cons in Hm. simpl app.
    rewrite matchSeq_star_eq. by rewrite Hc, (IH _ _ Ha Hm).
Qed.

(** A star that matches has consumed a run of its class. *)
Lemma star_elim p r : forall s prev,
  matchSeq (Star p :: r) prev s = true ->
  exists a s', s = a ++ s' /\ forallb p a = true
               /\ matchSeq r (last_or prev a) s' = true.
Proof.
  induction s as [|c s IH]; intros prev H; rewrite matchSeq_star_eq in H.
  - by exists [], [].
  - apply orb_true_iff in H as [H|H].
    + apply andb_true_iff in H as [Hc H].
      destruct (IH _ H) as (a & s' & -> & Ha & Hm).
      exists (c :: a), s'. split; [reflexivity|]. split.
      * simpl. by rewrite Hc, Ha.
      * by rewrite last_or_cons.
    + by exists [], (c :: s).
Qed.

(** A final star matches exactly the strings of its class. *)
Lemma star_end p : forall s prev, matchSeq [Star p] prev s = forallb p s.
Proof.
  induction s as [|c s IH]; intros prev; [reflexivity|].
  rewrite matchSeq_star_eq, IH. simpl. by rewrite orb_false_r.
Qed.

Lemma accepted_by_cons x r c :
  accepted_by r c = true -> accepted_by (x :: r) c = true.
Proof. unfold accepted_by. simpl. intros ->. apply orb_true_r. Qed.

Lemma forallb_accepted_cons x r s :
  forallb (accepted_by r) s = true -> forallb (accepted_by (x :: r)) s = true.
Proof.
  induction s as [|c s IH]; [done|]. cbn [forallb].
  intros [Hc Hs]%andb_true_iff. by rewrite (accepted_by_cons _ _ _ Hc), IH.
Qed.

(** A matched string is made of code units its atoms accept. *)
Lemma matchSeq_alphabet r : forall prev s,
  matchSeq r prev s = true -> forallb (accepted_by r) s = true.
Proof.
  induction r as [|[p|p|p] r IH]; intros prev s H.
  - by destruct s.
  - destruct s as [|c s]; [done|]. simpl in H.
    apply andb_true_iff in H as [Hc H]. cbn [forallb].
    rewrite (forallb_accepted_cons _ _ _ (IH _ _ H)).
    unfold accepted_by. simpl. by rewrite Hc.
  - revert prev H. induction s as [|c s IHs]; intros prev H; [done|].
    rewrite matchSeq_star_eq in H. apply orb_true_iff in H as [H|H].
    + apply andb_true_iff in H as [Hc H]. cbn [forallb]. rewrite (IHs _ H).
      unfold accepted_by. simpl. by rewrite Hc.
    + by apply forallb_accepted_cons, (IH prev).
  - simpl in H. apply andb_true_iff in H as [_ H].
    by apply forallb_accepted_cons, (IH prev).
Qed.

Lemma forallb_elem (f : char -> bool) s c :
  forallb f s = true -> c ∈ s -> f c = true.
Proof.
  intros H Hc. apply list_elem_of_In in Hc.
  by apply (proj1 (forallb_forall f s) H).
Qed.

Lemma is_char_eq x c : is_char x c = true <-> c = x.
Proof. unfold is_char. apply N.eqb_eq. Qed.

(** *** The operator pattern *)

(** [isOperator] holds exactly of the prefixes that end with a backslash and
    word characters, the backslash not coming after a slash, and nothing
    before it being a line terminator. *)
Lemma isOperator_tail_eq prev s :
  matchSeq [NotBehind (is_char slash); One (is_char backslash); Star is_word]
    prev s =
  negb (match prev with Some c => is_char slash c | None => false end)
  && match s with
     | [] => false
     | c :: w => is_char backslash c && forallb is_word w
     end.
Proof.
  rewrite matchSeq_notbehind_eq, matchSeq_one_eq.
  destruct s as [|c w]; [done|]. by rewrite star_end.
Qed.

Lemma isOperator_iff s :
  test re_isOperator s = true <->
  exists a w, s = a ++ backslash :: w
              /\ forallb is_dot a = true
              /\ last a <> Some slash
              /\ forallb is_word w = true.
Proof.
  unfold test, re_isOperator. split.
  - intros H. apply star_elim in H as (a & s' & -> & Ha & H).
    rewrite isOperator_tail_eq in H. apply andb_true_iff in H as [Hb H].
    destruct s' as [|c w]; [done|].
    apply andb_true_iff in H as [Hc H]. apply is_char_eq in Hc as ->.
    exists a, w. repeat split; [done| |done].
    intros Hl. unfold last_or in Hb. rewrite Hl in Hb. done.
  - intros (a & w & -> & Ha & Hl & Hw).
    apply star_intro; [done|]. rewrite isOperator_tail_eq.
    apply andb_true_iff. split.
    + unfold last_or. destruct (last a) as [c|] eqn:E; [|done].
      apply negb_true_iff. apply not_true_is_false.
      intros ->%is_char_eq. done.
    + apply andb_true_iff. split; [|done]. by apply is_char_eq.
Qed.

Lemma backslash_word_eq prev s :
  matchSeq re_backslash_word prev s =
  match s with
  | [] => false
  | c :: w => is_char backslash c && forallb is_word w
  end.
Proof.
  unfold re_backslash_word. rewrite matchSeq_one_eq.
  destruct s as [|c w]; [done|]. by rewrite star_end.
Qed.

Lemma not_word_after_backslash a w :
  forallb is_word (a ++ backslash :: w) = false.
Proof.
  induction a as [|c a IH]; simpl; [done|]. by rewrite IH, andb_false_r.
Qed.

Lemma searchFrom_eq r prev i s :
  searchFrom r prev i s =
  if matchSeq r prev s then Some (i, s)
  else match s with
       | [] => None
       | c :: s' => searchFrom r (Some c) (S i) s'
       end.
Proof. destruct s; reflexivity. Qed.

(** [prevText.match] finds the last backslash: the only position from which
    a backslash and word characters reach the end of the prefix. *)
Lemma searchFrom_last_backslash w : forall a prev i,
  forallb is_word w = true ->
  searchFrom re_backslash_word prev i (a ++ backslash :: w)
  = Some ((i + length a)%nat, backslash :: w).
Proof.
  induction a as [|c a IH]; intros prev i Hw; simpl app;
    rewrite searchFrom_eq, backslash_word_eq.
  - rewrite Hw. simpl. do 2 f_equal. lia.
  - rewrite not_word_after_backslash, andb_false_r.
    rewrite IH by done. simpl. do 2 f_equal. lia.
Qed.

Lemma match_last_backslash a w :
  forallb is_word w = true ->
  match_ re_backslash_word (a ++ backslash :: w)
  = Some (length a, backslash :: w).
Proof. intros Hw. unfold match_. by rewrite searchFrom_last_backslash. Qed.

Lemma isOperator_has_backslash s :
  test re_isOperator s = true -> backslash ∈ s.
Proof.
  intros (a & w & -> & _)%isOperator_iff. set_solver.
Qed.

(** A prefix made only of code units that are not the backslash is not an
    operator prefix. *)
Lemma alphabet_not_operator r s :
  accepted_by r backslash = false ->
  test r s = true -> test re_isOperator s = false.
Proof.
  intros Hr Hs. apply not_true_is_false. intros Ho.
  apply isOperator_has_backslash in Ho.
  apply matchSeq_alphabet in Hs.
  rewrite (forallb_elem _ _ _ Hs Ho) in Hr. done.
Qed.

Lemma startsWith_cons (x : char) (pre : jsstring) s :
  startsWith (x :: pre) s = true -> exists s', s = x :: s'.
Proof.
  destruct s as [|c s]; [done|]. simpl.
  intros [->%N.eqb_eq _]%andb_true_iff. by eexists.
Qed.

(** A proof-step prefix starts with white space or [<]. *)
Lemma isProofStep_head c s :
  test re_isProofStep (c :: s) = true ->
  is_space c = true \/ c = lt_sign.
Proof.
  unfold test, re_isProofStep. rewrite matchSeq_star_eq.
  intros [H|H]%orb_true_iff.
  - apply andb_true_iff in H as [H _]. by left.
  - simpl in H. apply andb_true_iff in H as [H _].
    right. by apply is_char_eq.
Qed.

Lemma isProofStep_not_declaration s :
  test re_isProofStep s = true -> starts_with_declaration s = false.
Proof.
  intros H. unfold starts_with_declaration.
  apply not_true_is_false. intros Hd.
  assert (exists c s', s = c :: s' /\ (c = 69 \/ c = 67 \/ c = 82))
    as (c & s' & -> & Hc).
  { apply orb_true_iff in Hd as [Hd|Hd];
      [apply orb_true_iff in Hd as [Hd|Hd]|];
      apply startsWith_cons in Hd as [s' ->]; eauto 8. }
  apply isProofStep_head in H.
  destruct Hc as [->|[->| ->]]; by destruct H.
Qed.

Lemma isProofStep_not_operator s :
  test re_isProofStep s = true -> test re_isOperator s = false.
Proof. by apply alphabet_not_operator. Qed.

Lemma isNewLine_not_operator s :
  test re_isNewLine s = true -> test re_isOperator s = false.
Proof. by apply alphabet_not_operator. Qed.

(** *** The new-line and proof-step patterns *)

Lemma isNewLine_iff s :
  test re_isNewLine s = true <->
  exists ws al, s = ws ++ al
                /\ forallb is_space ws = true /\ forallb is_alpha al = true.
Proof.
  unfold test, re_isNewLine. split.
  - intros (ws & al & -> & Hws & H)%star_elim. rewrite star_end in H.
    by exists ws, al.
  - intros (ws & al & -> & Hws & Hal).
    apply star_intro; [done|]. by rewrite star_end.
Qed.

Lemma isProofStep_iff s :
  test re_isProofStep s = true <->
  exists ws d ds lbl sp sps al,
    s = ws ++ lt_sign :: d :: ds ++ gt_sign :: lbl ++ sp :: sps ++ al
    /\ forallb is_space ws = true
    /\ is_digit d = true /\ forallb is_digit ds = true
    /\ forallb is_step_label lbl = true
    /\ is_space sp = true /\ forallb is_space sps = true
    /\ forallb is_alpha al = true.
Proof.
  unfold test, re_isProofStep. split.
  - intros (ws & s1 & -> & Hws & H)%star_elim.
    rewrite matchSeq_one_eq in H. destruct s1 as [|c s1]; [done|].
    apply andb_true_iff in H as [->%is_char_eq H].
    rewrite matchSeq_one_eq in H. destruct s1 as [|d s1]; [done|].
    apply andb_true_iff in H as [Hd H].
    apply star_elim in H as (ds & s2 & -> & Hds & H).
    rewrite matchSeq_one_eq in H. destruct s2 as [|c s2]; [done|].
    apply andb_true_iff in H as [->%is_char_eq H].
    apply star_elim in H as (lbl & s3 & -> & Hlbl & H).
    rewrite matchSeq_one_eq in H. destruct s3 as [|sp s3]; [done|].
    apply andb_true_iff in H as [Hsp H].
    apply star_elim in H as (sps & al & -> & Hsps & H).
    rewrite star_end in H.
    by exists ws, d, ds, lbl, sp, sps, al.
  - intros (ws & d & ds & lbl & sp & sps & al & -> & Hws & Hd & Hds & Hlbl
            & Hsp & Hsps & Hal).
    apply star_intro; [done|]. rewrite matchSeq_one_eq.
    apply andb_true_iff. split; [by apply is_char_eq|].
    rewrite matchSeq_one_eq, Hd. cbn [andb].
    apply star_intro; [done|]. rewrite matchSeq_one_eq.
    apply andb_true_iff. split; [by apply is_char_eq|].
    apply star_intro; [done|]. rewrite matchSeq_one_eq, Hsp. cbn [andb].
    apply star_intro; [done|]. by rewrite star_end.
Qed.

End Regex.

(** ** Resolution *)

Section Resolution.

Implicit Types (item : CompletionItem) (enable useUnicode : bool).

Lemma new_Map_elem entries k g :
  new_Map entries !! k = Some g -> (k, g) ∈ entries.
Proof.
  unfold new_Map.
  assert (forall (m : gmap jsstring jsstring),
            foldl (fun m kv => <[kv.1 := kv.2]> m) m entries !! k = Some g ->
            (k, g) ∈ entries \/ m !! k = Some g) as H.
  { induction entries as [|[k' g'] es IH]; intros m Hm; [by right|].
    simpl in Hm. destruct (IH _ Hm) as [?|Hi]; [left; set_solver|].
    destruct (decide (k' = k)) as [->|Hne].
    - rewrite lookup_insert_eq in Hi. left. set_solver.
    - rewrite lookup_insert_ne in Hi by done. by right. }
  intros Hm. destruct (H _ Hm) as [?|Hi]; [done|].
  by rewrite lookup_empty in Hi.
Qed.

(** No glyph of the table is the empty string, so a glyph that is found is
    truthy. *)
Lemma glyph_truthy k g :
  TLA_UNICODE_OPERATORS !! k = Some g -> truthy (Some g) = true.
Proof.
  intros H%new_Map_elem%list_elem_of_In.
  assert (forallb (fun kv => truthy (Some kv.2))
            TLA_UNICODE_OPERATORS_entries = true) as Hall by reflexivity.
  exact (proj1 (forallb_forall _ _) Hall _ H).
Qed.

#[local] Opaque TLA_UNICODE_OPERATORS.

Lemma resolveOperatorCompletion_insertText item useUnicode :
  insertText (resolveOperatorCompletion item useUnicode) =
  Some (match TLA_UNICODE_OPERATORS !! substring_from 1 (label item) with
        | Some glyph =>
            if useUnicode then glyph ++ [space]
            else backslash :: substring_from 1 (label item) ++ [space]
        | None => backslash :: substring_from 1 (label item) ++ [space]
        end).
Proof.
  unfold resolveOperatorCompletion, set_insertText. cbn [insertText].
  destruct (TLA_UNICODE_OPERATORS !! _) as [g|] eqn:E.
  - rewrite (glyph_truthy _ _ E). clear E. destruct useUnicode; reflexivity.
  - destruct useUnicode; reflexivity.
Qed.

Lemma resolveCompletionItem_shape enable item item' :
  resolveCompletionItem enable item = Some item' ->
  shape item' = shape item /\ range item' = range item.
Proof.
  unfold resolveCompletionItem. intros H.
  destruct (kind item) as [[]|]; by simplify_eq.
Qed.

(** A resolved item is a fixed point of the resolver. *)
Lemma resolveCompletionItem_fixed enable item item' :
  resolveCompletionItem enable item = Some item' ->
  resolveCompletionItem enable item' = Some item'.
Proof.
  unfold resolveCompletionItem. intros H.
  destruct (kind item) as [[]|] eqn:E; simplify_eq; simpl; rewrite ?E; done.
Qed.

Lemma resolveCompletionItem_other enable item :
  kind item <> Some Keyword -> kind item <> Some Operator ->
  resolveCompletionItem enable item = Some item.
Proof.
  unfold resolveCompletionItem. by destruct (kind item) as [[]|].
Qed.

End Resolution.

(** ** The shared items under resolutions *)

Section Catalog_invariant.

Variable enable : bool.

Lemma read_write_same a l cat : read_array a (write_array a l cat) = l.
Proof. by destruct a. Qed.

Lemma read_write_other a b l cat :
  a <> b -> read_array b (write_array a l cat) = read_array b cat.
Proof. by destruct a, b. Qed.

Lemma catalog_inv_initial : catalog_inv enable initial_catalog.
Proof. intros a. apply Forall2_same_length_lookup_2; [done|].
  intros i x y Hx Hy. left. congruence.
Qed.

Lemma catalog_inv_step cat cat' :
  catalog_inv enable cat -> resolve_step enable cat cat' ->
  catalog_inv enable cat'.
Proof.
  intros Hinv Hs. revert Hinv.
  destruct Hs as [cat a i item item' Hi Hr]. intros Hinv b.
  destruct (decide (a = b)) as [<-|Hne];
    [|rewrite read_write_other by done; apply Hinv].
  rewrite read_write_same.
  destruct (Forall2_lookup_r _ _ _ _ _ (Hinv a) Hi) as (item0 & Hi0 & Hfr).
  rewrite <- (list_insert_id _ _ _ Hi0).
  apply Forall2_insert; [apply Hinv|].
  destruct Hfr as [->|H0]; [by right|]. right.
  rewrite (resolveCompletionItem_fixed _ _ _ H0) in Hr. by simplify_eq.
Qed.

Lemma reachable_after_LET : reachable enable catalog_after_LET.
Proof.
  apply rtc_once.
  apply (resolve_shared enable initial_catalog OtherKeywordItems 0
           (newItem (lit "LET") Keyword)); reflexivity.
Qed.

Lemma reachable_inv cat : reachable enable cat -> catalog_inv enable cat.
Proof.
  unfold reachable. intros H.
  eapply (rtc_ind_r (catalog_inv enable)); [| |exact H].
  - apply catalog_inv_initial.
  - intros y z _ Hyz Hy. by eapply catalog_inv_step.
Qed.

Lemma fresh_or_resolved_shape item0 item :
  fresh_or_resolved enable item0 item -> shape item = shape item0.
Proof.
  intros [->|H]; [done|]. by apply resolveCompletionItem_shape in H as [H _].
Qed.

(** Resolutions change neither the labels nor the kinds of the shared
    items. *)
Lemma catalog_inv_shape cat a :
  catalog_inv enable cat ->
  map shape (read_array a cat) = map shape (read_array a initial_catalog).
Proof.
  intros H. specialize (H a).
  induction H as [|x y l k Hxy _ IH]; [done|]. simpl.
  by rewrite IH, (fresh_or_resolved_shape _ _ Hxy).
Qed.

(** Items that are neither keywords nor operators are never written. *)
Lemma catalog_inv_unwritten cat a :
  Forall (fun it => kind it <> Some Keyword /\ kind it <> Some Operator)
    (read_array a initial_catalog) ->
  catalog_inv enable cat ->
  read_array a cat = read_array a initial_catalog.
Proof.
  intros Hk H. specialize (H a).
  induction H as [|x y l k Hxy _ IH]; [done|].
  apply Forall_cons in Hk as [[Hx1 Hx2] Hk]. rewrite IH by done.
  destruct Hxy as [->|Hr]; [done|].
  rewrite resolveCompletionItem_other in Hr by done. by simplify_eq.
Qed.

Lemma newItem_unwritten (k : CompletionItemKind) (ws : list jsstring) :
  k <> Keyword -> k <> Operator ->
  Forall (fun it => kind it <> Some Keyword /\ kind it <> Some Operator)
    (map (fun w => newItem w k) ws).
Proof.
  intros Hk Ho. induction ws as [|w ws IH]; constructor; [|done].
  split; simpl; congruence.
Qed.

Lemma reachable_std_modules cat :
  reachable enable cat ->
  TLA_STD_MODULE_ITEMS cat = map (fun m => newItem m Module) TLA_STD_MODULES.
Proof.
  intros H%reachable_inv.
  apply (catalog_inv_unwritten cat StdModuleItems); [|done].
  by apply newItem_unwritten.
Qed.

Lemma reachable_constants cat :
  reachable enable cat ->
  TLA_CONST_ITEMS cat = map (fun w => newItem w Constant) TLA_CONSTANTS.
Proof.
  intros H%reachable_inv.
  apply (catalog_inv_unwritten cat ConstItems); [|done].
  by apply newItem_unwritten.
Qed.

Lemma shape_newItem (k : CompletionItemKind) (ws : list jsstring) :
  map shape (map (fun w => newItem w k) ws) = map (fun w => (w, Some k)) ws.
Proof. by rewrite map_map. Qed.

Lemma reachable_starting cat :
  reachable enable cat ->
  map shape (TLA_STARTING_KEYWORD_ITEMS cat)
  = map (fun w => (w, Some Keyword)) TLA_STARTING_KEYWORDS.
Proof.
  intros H%reachable_inv.
  etrans; [apply (catalog_inv_shape cat StartingKeywordItems H)|].
  apply shape_newItem.
Qed.

Lemma reachable_proof_starting cat :
  reachable enable cat ->
  map shape (TLA_PROOF_STARTING_KEYWORD_ITEMS cat)
  = map (fun w => (w, Some Keyword)) TLA_PROOF_STARTING_KEYWORDS.
Proof.
  intros H%reachable_inv.
  etrans; [apply (catalog_inv_shape cat ProofStartingKeywordItems H)|].
  apply shape_newItem.
Qed.

Lemma reachable_other cat :
  reachable enable cat ->
  map shape (TLA_OTHER_KEYWORD_ITEMS cat)
  = map (fun w => (w, Some Keyword)) TLA_OTHER_KEYWORDS.
Proof.
  intros H%reachable_inv.
  etrans; [apply (catalog_inv_shape cat OtherKeywordItems H)|].
  apply shape_newItem.
Qed.

Lemma write_write a l l' cat :
  write_array a l (write_array a l' cat) = write_array a l cat.
Proof. by destruct a. Qed.

(** Resolving a shared item a second time changes nothing. *)
Lemma resolve_shared_again cat a i item item' item'' :
  read_array a cat !! i = Some item ->
  resolveCompletionItem enable item = Some item' ->
  let cat' := write_array a (<[i := item']> (read_array a cat)) cat in
  read_array a cat' !! i = Some item'
  /\ (resolveCompletionItem enable item' = Some item'' ->
      write_array a (<[i := item'']> (read_array a cat')) cat' = cat').
Proof.
  intros Hi Hr cat'. subst cat'. rewrite read_write_same. split.
  - apply list_lookup_insert_eq. by eapply lookup_lt_Some.
  - rewrite (resolveCompletionItem_fixed _ _ _ Hr). intros [= <-].
    by rewrite list_insert_insert_eq, write_write.
Qed.

End Catalog_invariant.

(** ** The resolution policy *)

Section Resolution_claims.

Lemma one_trailing_space_spec t :
  one_trailing_space t = true ->
  exists body c,
    t = body ++ [space] /\ last body = Some c /\ c <> space.
Proof.
  unfold one_trailing_space.
  destruct (reverse t) as [|c [|c' rest]] eqn:E; [done..|].
  intros [->%N.eqb_eq Hc']%andb_true_iff.
  exists (reverse (c' :: rest)), c'. split; [|split].
  - by rewrite <- (reverse_involutive t), E, reverse_cons.
  - by rewrite last_reverse.
  - intros ->. done.
Qed.

Lemma resolveOperatorCompletion_label_only item item' useUnicode :
  label item = label item' ->
  insertText (resolveOperatorCompletion item useUnicode)
  = insertText (resolveOperatorCompletion item' useUnicode).
Proof.
  intros H. by rewrite !resolveOperatorCompletion_insertText, H.
Qed.

(** C3: for every item and preference flag, [resolveOperatorCompletion] sets
    [insertText] to the glyph and a space when the flag is true and the
    label without its first code unit (the bare operator name) has a glyph,
    and to the backslash, the bare name and a space otherwise. In particular
    "\in" resolves to the glyph U+2208 and a space under Unicode and to
    "\in " without it, and "\s", which has no glyph, resolves to "\s " even
    under Unicode. *)
Theorem C3_resolveOperatorCompletion_policy :
  (forall item useUnicode,
     insertText (resolveOperatorCompletion item useUnicode) =
     Some (match TLA_UNICODE_OPERATORS !! substring_from 1 (label item) with
           | Some glyph =>
               if useUnicode then glyph ++ [space]
               else backslash :: substring_from 1 (label item) ++ [space]
           | None => backslash :: substring_from 1 (label item) ++ [space]
           end))
  /\ insertText (resolveOperatorCompletion (newItem (lit "\in") Operator) true)
     = Some [0x2208; space]
  /\ insertText (resolveOperatorCompletion (newItem (lit "\in") Operator) false)
     = Some (lit "\in ")
  /\ TLA_UNICODE_OPERATORS !! lit "s" = None
  /\ insertText (resolveOperatorCompletion (newItem (lit "\s") Operator) true)
     = Some (lit "\s ").
Proof.
  split; [apply resolveOperatorCompletion_insertText|].
  repeat split; vm_compute; reflexivity.
Qed.

(** C8: for every operator of [TLA_OPERATORS] and both values of the
    preference, the resolved [insertText] of the operator's item is a
    non-empty text followed by exactly one space: it is [body] and a space,
    where [body] is not empty and ends with a code unit [c] that is not the
    space. *)
Theorem C8_catalog_operator_insertText (op : jsstring) (useUnicode : bool)
  (item : CompletionItem) :
  op ∈ TLA_OPERATORS ->
  label item = backslash :: op ->
  exists t body c,
    insertText (resolveOperatorCompletion item useUnicode) = Some t
    /\ t <> []
    /\ t = body ++ [space]
    /\ body <> []
    /\ last body = Some c
    /\ c <> space.
Proof.
  intros Hop Hl.
  rewrite (resolveOperatorCompletion_label_only item
             (newItem (backslash :: op) Operator)) by done.
  assert (forallb (fun op =>
            forallb (fun b =>
              match insertText (resolveOperatorCompletion
                                  (newItem (backslash :: op) Operator) b) with
              | Some t => one_trailing_space t
              | None => false
              end) [true; false]) TLA_OPERATORS = true) as Hall
    by (vm_compute; reflexivity).
  apply list_elem_of_In in Hop.
  pose proof (proj1 (forallb_forall _ _) Hall _ Hop) as Hb.
  cbn [forallb] in Hb. rewrite andb_true_r in Hb.
  apply andb_true_iff in Hb as [Ht Hf].
  set (r := insertText (resolveOperatorCompletion
                          (newItem (backslash :: op) Operator) useUnicode)).
  assert (match r with Some t => one_trailing_space t | None => false end
          = true) as H
    by (subst r; by destruct useUnicode).
  clearbody r. destruct r as [t|]; [|done].
  destruct (one_trailing_space_spec _ H) as (body & c & -> & Hlast & Hc).
  clear - Hlast Hc. exists (body ++ [space]), body, c.
  split; [reflexivity|]. split; [by destruct body|].
  split; [reflexivity|]. split; [by intros ->|].
  split; [exact Hlast|exact Hc].
Qed.

(** The theorem at "\in" with the Unicode preference. *)
Lemma C8_witness :
  exists t body c,
    insertText (resolveOperatorCompletion (newItem (lit "\in") Operator) true)
    = Some t
    /\ t <> [] /\ t = body ++ [space]
    /\ body <> [] /\ last body = Some c /\ c <> space.
Proof.
  apply (C8_catalog_operator_insertText (lit "in") true
           (newItem (lit "\in") Operator)).
  - vm_compute. do 6 right. left.
  - reflexivity.
Defined.

(** C9: the resolver is idempotent on [insertText]: it always returns an
    item, and resolving the returned item again, with the same preference,
    returns an item with the same [insertText] (in fact the same item); this
    holds for items of every kind, keywords and operators included. *)
Theorem C9_resolveCompletionItem_idempotent (enable : bool)
  (item : CompletionItem) :
  exists item1 item2,
    resolveCompletionItem enable item = Some item1
    /\ resolveCompletionItem enable item1 = Some item2
    /\ insertText item2 = insertText item1
    /\ item2 = item1.
Proof.
  assert (exists item1, resolveCompletionItem enable item = Some item1)
    as [item1 H1].
  { unfold resolveCompletionItem. destruct (kind item) as [[]|]; by eexists. }
  exists item1, item1. repeat split; [done| ].
  by apply (resolveCompletionItem_fixed enable item).
Qed.

End Resolution_claims.

(** ** The provider *)

Section Provider_claims.

Implicit Types (cat : Catalog) (docInfos : TlaDocumentInfos).
Implicit Types (document : TextDocument) (position : Position).
Implicit Types (it : CompletionItem) (ws : list jsstring).

Lemma getPrevText_length document position :
  (length (getPrevText document position) <= character position)%nat.
Proof. unfold getPrevText. rewrite length_take. lia. Qed.

Lemma getPrevText_sample s :
  getPrevText (document_of_line s) (end_of_line s) = s.
Proof. unfold getPrevText. simpl. apply firstn_all. Qed.

(** The provider past its first three rules. *)
Lemma provide_general cat docInfos document position :
  starts_with_declaration (getPrevText document position) = false ->
  test re_isOperator (getPrevText document position) = false ->
  provideCompletionItems cat docInfos document position =
  Some (mkList
    (let items := TLA_INNER_ITEMS cat ++ symbolInfos docInfos document in
     if negb (isPlusCalAt (get docInfos (uri document)) position) then
       if test re_isProofStep (getPrevText document position)
       then items ++ TLA_PROOF_STARTING_KEYWORD_ITEMS cat
       else if test re_isNewLine (getPrevText document position)
            then items ++ TLA_STARTING_KEYWORD_ITEMS cat
            else items
     else items) false).
Proof.
  unfold starts_with_declaration, provideCompletionItems. cbv zeta.
  intros [[H1 H2]%orb_false_iff H3]%orb_false_iff Ho.
  rewrite H1, H2, H3, Ho. reflexivity.
Qed.

Lemma startsWith_other_head (x y : char) (pre pre' : jsstring) s :
  x <> y -> startsWith (x :: pre) s = true -> startsWith (y :: pre') s = false.
Proof.
  intros Hxy [s' ->]%startsWith_cons. simpl.
  by rewrite (proj2 (N.eqb_neq y x)).
Qed.

(** C4: when the text before the cursor starts with EXTENDS, the provider
    returns the list of the standard-module items, one item of kind Module
    for each name of [TLA_STD_MODULES] and nothing else; no resolution of a
    shared item changes that. *)
Theorem C4_extends_std_modules_only (enable : bool) cat docInfos document
  position :
  reachable enable cat ->
  startsWith (lit "EXTENDS") (getPrevText document position) = true ->
  provideCompletionItems cat docInfos document position
  = Some (mkList (map (fun m => newItem m Module) TLA_STD_MODULES) false).
Proof.
  intros Hcat H. unfold provideCompletionItems. cbv zeta. rewrite H.
  by rewrite (reachable_std_modules enable cat Hcat).
Qed.

(** The theorem at the line "EXTENDS " of the test suite. *)
Lemma C4_witness :
  provideCompletionItems initial_catalog (sample_docInfos false)
    (document_of_line (lit "EXTENDS ")) (end_of_line (lit "EXTENDS "))
  = Some (mkList (map (fun m => newItem m Module) TLA_STD_MODULES) false).
Proof.
  apply (C4_extends_std_modules_only false).
  - apply rtc_refl.
  - reflexivity.
Defined.

(** C5: when the text before the cursor starts with CONSTANT or RECURSIVE,
    the provider returns a list, which is empty and complete
    ([isIncomplete] is false). *)
Theorem C5_constant_recursive_empty_complete cat docInfos document position :
  startsWith (lit "CONSTANT") (getPrevText document position) = true
  \/ startsWith (lit "RECURSIVE") (getPrevText document position) = true ->
  provideCompletionItems cat docInfos document position
  = Some (mkList [] false).
Proof.
  intros H. unfold provideCompletionItems. cbv zeta.
  assert (startsWith (lit "EXTENDS") (getPrevText document position) = false)
    as ->.
  { destruct H as [H|H].
    - exact (startsWith_other_head 67 69 (lit "ONSTANT") (lit "XTENDS") _
               ltac:(done) H).
    - exact (startsWith_other_head 82 69 (lit "ECURSIVE") (lit "XTENDS") _
               ltac:(done) H). }
  by destruct H as [-> | ->]; rewrite ?orb_true_r.
Qed.

(** The theorem at the lines "CONSTANT " and "RECURSIVE f(_)". *)
Lemma C5_witness :
  provideCompletionItems initial_catalog (sample_docInfos false)
    (document_of_line (lit "CONSTANT ")) (end_of_line (lit "CONSTANT "))
  = Some (mkList [] false)
  /\ provideCompletionItems initial_catalog (sample_docInfos false)
       (document_of_line (lit "RECURSIVE f(_)"))
       (end_of_line (lit "RECURSIVE f(_)"))
     = Some (mkList [] false).
Proof.
  split; apply C5_constant_recursive_empty_complete;
    [left | right]; reflexivity.
Defined.

(** *** Membership in the assembled lists *)

Lemma shape_elem (l : list CompletionItem) ws (k : CompletionItemKind) it :
  map shape l = map (fun w => (w, Some k)) ws ->
  it ∈ l -> label it ∈ ws /\ kind it = Some k.
Proof.
  intros Hm Hit%list_elem_of_In. apply (in_map shape) in Hit.
  rewrite Hm in Hit. apply in_map_iff in Hit as (w & Hw & Hin).
  unfold shape in Hw. simplify_eq. split; [by apply list_elem_of_In|done].
Qed.

Lemma shape_elem_inv (l : list CompletionItem) ws (k : CompletionItemKind)
  (w : jsstring) :
  map shape l = map (fun w => (w, Some k)) ws ->
  w ∈ ws -> exists it, it ∈ l /\ label it = w /\ kind it = Some k.
Proof.
  intros Hm Hw%list_elem_of_In.
  apply (in_map (fun w => (w, Some k))) in Hw.
  rewrite <- Hm in Hw. apply in_map_iff in Hw as (it & Hs & Hit).
  exists it. unfold shape in Hs. simplify_eq.
  split; [by apply list_elem_of_In|done].
Qed.

Lemma symbolInfos_not_keyword docInfos document it :
  it ∈ symbolInfos docInfos document -> kind it <> Some Keyword.
Proof.
  intros Hit%list_elem_of_In. unfold symbolInfos in Hit.
  apply in_map_iff in Hit as (s & <- & _). simpl.
  by destruct (symbolKind s).
Qed.

(** No starting keyword and no proof-starting keyword is a general keyword,
    and no keyword is both starting and proof-starting. *)
Lemma keyword_classes_disjoint :
  Forall (fun w => (w ∉ TLA_OTHER_KEYWORDS)
                   /\ (w ∉ TLA_PROOF_STARTING_KEYWORDS))
    TLA_STARTING_KEYWORDS
  /\ Forall (fun w => w ∉ TLA_OTHER_KEYWORDS) TLA_PROOF_STARTING_KEYWORDS.
Proof. split; apply (bool_decide_unpack _); by vm_compute. Qed.

Lemma starting_not_other w :
  w ∈ TLA_STARTING_KEYWORDS -> w ∉ TLA_OTHER_KEYWORDS.
Proof.
  intros Hw.
  by apply (proj1 (Forall_forall _ _) (proj1 keyword_classes_disjoint) _ Hw).
Qed.

Lemma starting_not_proof_starting w :
  w ∈ TLA_STARTING_KEYWORDS -> w ∉ TLA_PROOF_STARTING_KEYWORDS.
Proof.
  intros Hw.
  by apply (proj1 (Forall_forall _ _) (proj1 keyword_classes_disjoint) _ Hw).
Qed.

Lemma proof_starting_not_other w :
  w ∈ TLA_PROOF_STARTING_KEYWORDS -> w ∉ TLA_OTHER_KEYWORDS.
Proof.
  intros Hw.
  by apply (proj1 (Forall_forall _ _) (proj2 keyword_classes_disjoint) _ Hw).
Qed.

(** The general items hold no keyword of a class disjoint from the general
    keywords. *)
Lemma general_items_no_keyword (enable : bool) cat docInfos document ws it :
  reachable enable cat ->
  (forall w, w ∈ ws -> w ∉ TLA_OTHER_KEYWORDS) ->
  it ∈ TLA_INNER_ITEMS cat ++ symbolInfos docInfos document ->
  ~ keyword_item_of ws it.
Proof.
  intros Hcat Hws Hit [Hk Hl]. unfold TLA_INNER_ITEMS in Hit.
  apply elem_of_app in Hit as [Hit|Hit];
    [apply elem_of_app in Hit as [Hit|Hit]|].
  - destruct (shape_elem _ _ _ _ (reachable_other enable cat Hcat) Hit)
      as [Ho _].
    by apply (Hws _ Hl).
  - rewrite (reachable_constants enable cat Hcat) in Hit.
    apply list_elem_of_In, in_map_iff in Hit as (w & <- & _). done.
  - by apply symbolInfos_not_keyword in Hit.
Qed.

(** C6: when the text before the cursor matches the proof-step pattern and
    the cursor is not in the PlusCal block, the provider returns a list in
    which every proof-starting keyword appears as a Keyword item and in
    which no item is a starting keyword. *)
Theorem C6_proof_step_keywords (enable : bool) cat docInfos document position :
  reachable enable cat ->
  test re_isProofStep (getPrevText document position) = true ->
  isPlusCalAt (get docInfos (uri document)) position = false ->
  exists l,
    provideCompletionItems cat docInfos document position = Some l
    /\ (forall w, w ∈ TLA_PROOF_STARTING_KEYWORDS ->
          exists it, it ∈ items l /\ label it = w /\ kind it = Some Keyword)
    /\ (forall it, it ∈ items l ->
          ~ keyword_item_of TLA_STARTING_KEYWORDS it).
Proof.
  intros Hcat Hstep Hplus.
  rewrite provide_general
    by auto using isProofStep_not_declaration, isProofStep_not_operator.
  rewrite Hplus, Hstep. cbn [negb]. cbv zeta.
  eexists. split; [reflexivity|]. cbn [items]. split.
  - intros w Hw.
    destruct (shape_elem_inv _ _ _ _
                (reachable_proof_starting enable cat Hcat) Hw)
      as (it & Hit & Hl & Hk).
    exists it. split; [|done]. apply elem_of_app. by right.
  - intros it [Hit|Hit]%elem_of_app.
    + apply (general_items_no_keyword enable cat docInfos document); [done| |done].
      apply starting_not_other.
    + intros [_ Hl].
      destruct (shape_elem _ _ _ _
                  (reachable_proof_starting enable cat Hcat) Hit) as [Hp _].
      by apply (starting_not_proof_starting _ Hl).
Qed.

(** The proof-step prefixes of the test suite match the pattern. *)
Example proof_step_prefixes :
  test re_isProofStep (lit "<1>. ") = true
  /\ test re_isProofStep (lit "<12>.4 ") = true
  /\ test re_isProofStep (lit "<8>.a ") = true
  /\ test re_isProofStep (lit "<8>.a QE") = true.
Proof. by vm_compute. Qed.

(** The theorem at the line "<12>.4 t". *)
Lemma C6_witness :
  exists l,
    provideCompletionItems initial_catalog (sample_docInfos false)
      (document_of_line (lit "<12>.4 t")) (end_of_line (lit "<12>.4 t"))
    = Some l
    /\ (forall w, w ∈ TLA_PROOF_STARTING_KEYWORDS ->
          exists it, it ∈ items l /\ label it = w /\ kind it = Some Keyword)
    /\ (forall it, it ∈ items l ->
          ~ keyword_item_of TLA_STARTING_KEYWORDS it).
Proof.
  apply (C6_proof_step_keywords false).
  - apply rtc_refl.
  - reflexivity.
  - reflexivity.
Defined.

Lemma general_items_shape (enable : bool) cat docInfos document :
  reachable enable cat ->
  map shape (TLA_OTHER_KEYWORD_ITEMS cat ++ TLA_CONST_ITEMS cat
             ++ symbolInfos docInfos document)
  = map (fun w => (w, Some Keyword)) TLA_OTHER_KEYWORDS
    ++ map (fun w => (w, Some Constant)) TLA_CONSTANTS
    ++ map shape (symbolInfos docInfos document).
Proof.
  intros Hcat. rewrite !map_app.
  rewrite (reachable_other enable cat Hcat).
  by rewrite (reachable_constants enable cat Hcat), shape_newItem.
Qed.

(** C10: when the cursor is in the PlusCal block and the text before it
    neither starts with EXTENDS, CONSTANT or RECURSIVE nor matches the
    operator pattern, the provider returns exactly the general keyword
    items, the constant items and the items of the document's symbols, in
    this order, whatever the prefix is; none of them is a starting keyword
    or a proof-starting keyword. *)
Theorem C10_plusCal_general_only (enable : bool) cat docInfos document
  position :
  reachable enable cat ->
  isPlusCalAt (get docInfos (uri document)) position = true ->
  starts_with_declaration (getPrevText document position) = false ->
  test re_isOperator (getPrevText document position) = false ->
  provideCompletionItems cat docInfos document position
  = Some (mkList (TLA_OTHER_KEYWORD_ITEMS cat ++ TLA_CONST_ITEMS cat
                  ++ symbolInfos docInfos document) false)
  /\ map shape (TLA_OTHER_KEYWORD_ITEMS cat ++ TLA_CONST_ITEMS cat
                ++ symbolInfos docInfos document)
     = map (fun w => (w, Some Keyword)) TLA_OTHER_KEYWORDS
       ++ map (fun w => (w, Some Constant)) TLA_CONSTANTS
       ++ map shape (symbolInfos docInfos document)
  /\ (forall it,
        it ∈ TLA_OTHER_KEYWORD_ITEMS cat ++ TLA_CONST_ITEMS cat
             ++ symbolInfos docInfos document ->
        ~ keyword_item_of TLA_STARTING_KEYWORDS it
        /\ ~ keyword_item_of TLA_PROOF_STARTING_KEYWORDS it).
Proof.
  intros Hcat Hplus Hdecl Hop. split; [|split].
  - rewrite provide_general by done. rewrite Hplus. cbn [negb]. cbv zeta.
    unfold TLA_INNER_ITEMS. by rewrite <- app_assoc.
  - by apply (general_items_shape enable).
  - intros it Hit. rewrite app_assoc in Hit.
    split;
      apply (general_items_no_keyword enable cat docInfos document);
      auto using starting_not_other, proof_starting_not_other.
Qed.

(** The theorem at the proof-step line "<1>. " with the cursor in the
    PlusCal block, after a resolution of the shared item LET. *)
Lemma C10_witness :
  provideCompletionItems catalog_after_LET (sample_docInfos true)
    (document_of_line (lit "<1>. ")) (end_of_line (lit "<1>. "))
  = Some (mkList (TLA_OTHER_KEYWORD_ITEMS catalog_after_LET
                  ++ TLA_CONST_ITEMS catalog_after_LET
                  ++ symbolInfos (sample_docInfos true)
                       (document_of_line (lit "<1>. "))) false)
  /\ test re_isProofStep
       (getPrevText (document_of_line (lit "<1>. "))
          (end_of_line (lit "<1>. "))) = true.
Proof.
  split; [|reflexivity].
  apply (C10_plusCal_general_only false);
    [apply reachable_after_LET|reflexivity..].
Defined.

(** *** Order of the assembled list *)

(** C2, as stated, fails: on an empty line outside the PlusCal block the
    provider escalates to the starting keywords, and the list it returns
    does not begin with them: its first item is the general keyword LET and
    its last item the starting keyword RECURSIVE. *)
Lemma C2_counterexample :
  test re_isNewLine
    (getPrevText (document_of_line []) (end_of_line [])) = true
  /\ exists l,
       provideCompletionItems initial_catalog (sample_docInfos false)
         (document_of_line []) (end_of_line []) = Some l
       /\ items l <>
          TLA_STARTING_KEYWORD_ITEMS initial_catalog
          ++ TLA_OTHER_KEYWORD_ITEMS initial_catalog
          ++ TLA_CONST_ITEMS initial_catalog
          ++ symbolInfos (sample_docInfos false) (document_of_line [])
       /\ head (items l) = Some (newItem (lit "LET") Keyword)
       /\ last (items l) = Some (newItem (lit "RECURSIVE") Keyword).
Proof.
  split; [reflexivity|]. eexists. split; [reflexivity|].
  split; [|split; reflexivity].
  intros H. apply (f_equal head) in H. vm_compute in H. discriminate H.
Qed.

(** C2, amended: when the provider escalates a general list (the first
    three rules do not fire, the cursor is not in the PlusCal block, and the
    prefix matches the proof-step or the new-line pattern), the list is, in
    this order: the general keywords, the constants, the items of the
    symbols, and last the keyword class, which is the proof-starting
    keywords for a proof-step prefix and the starting keywords otherwise. *)
Theorem C2_escalated_list_order (enable : bool) cat docInfos document
  position :
  reachable enable cat ->
  starts_with_declaration (getPrevText document position) = false ->
  isPlusCalAt (get docInfos (uri document)) position = false ->
  test re_isProofStep (getPrevText document position) = true
  \/ test re_isNewLine (getPrevText document position) = true ->
  provideCompletionItems cat docInfos document position
  = Some (mkList
      (TLA_OTHER_KEYWORD_ITEMS cat ++ TLA_CONST_ITEMS cat
       ++ symbolInfos docInfos document
       ++ (if test re_isProofStep (getPrevText document position)
           then TLA_PROOF_STARTING_KEYWORD_ITEMS cat
           else TLA_STARTING_KEYWORD_ITEMS cat)) false)
  /\ map shape
       (TLA_OTHER_KEYWORD_ITEMS cat ++ TLA_CONST_ITEMS cat
        ++ symbolInfos docInfos document
        ++ (if test re_isProofStep (getPrevText document position)
            then TLA_PROOF_STARTING_KEYWORD_ITEMS cat
            else TLA_STARTING_KEYWORD_ITEMS cat))
     = map (fun w => (w, Some Keyword)) TLA_OTHER_KEYWORDS
       ++ map (fun w => (w, Some Constant)) TLA_CONSTANTS
       ++ map shape (symbolInfos docInfos document)
       ++ map (fun w => (w, Some Keyword))
            (if test re_isProofStep (getPrevText document position)
             then TLA_PROOF_STARTING_KEYWORDS
             else TLA_STARTING_KEYWORDS).
Proof.
  intros Hcat Hdecl Hplus Hesc. split.
  - rewrite provide_general; [|done|].
    + rewrite Hplus. cbn [negb]. cbv zeta. unfold TLA_INNER_ITEMS.
      destruct (test re_isProofStep _) eqn:Hstep.
      * by rewrite <- !app_assoc.
      * destruct Hesc as [?| ->]; [done|]. by rewrite <- !app_assoc.
    + destruct Hesc;
        auto using isProofStep_not_operator, isNewLine_not_operator.
  - rewrite !app_assoc, map_app, <- !app_assoc.
    rewrite (general_items_shape enable) by done.
    rewrite <- !app_assoc. do 3 f_equal.
    destruct (test re_isProofStep _).
    + by apply (reachable_proof_starting enable).
    + by apply (reachable_starting enable).
Qed.

(** The theorem at the empty line and at the proof-step line "<1>. ". *)
Lemma C2_witness :
  items <$> provideCompletionItems initial_catalog (sample_docInfos false)
              (document_of_line []) (end_of_line [])
  = Some (TLA_OTHER_KEYWORD_ITEMS initial_catalog
          ++ TLA_CONST_ITEMS initial_catalog
          ++ symbolInfos (sample_docInfos false) (document_of_line [])
          ++ TLA_STARTING_KEYWORD_ITEMS initial_catalog)
  /\ items <$> provideCompletionItems initial_catalog (sample_docInfos false)
                 (document_of_line (lit "<1>. ")) (end_of_line (lit "<1>. "))
     = Some (TLA_OTHER_KEYWORD_ITEMS initial_catalog
             ++ TLA_CONST_ITEMS initial_catalog
             ++ symbolInfos (sample_docInfos false)
                  (document_of_line (lit "<1>. "))
             ++ TLA_PROOF_STARTING_KEYWORD_ITEMS initial_catalog).
Proof.
  split.
  - destruct (C2_escalated_list_order false initial_catalog
                (sample_docInfos false) (document_of_line [])
                (end_of_line [])) as [H _];
      [apply rtc_refl|reflexivity|reflexivity|right; reflexivity|].
    rewrite H. reflexivity.
  - destruct (C2_escalated_list_order false initial_catalog
                (sample_docInfos false) (document_of_line (lit "<1>. "))
                (end_of_line (lit "<1>. "))) as [H _];
      [apply rtc_refl|reflexivity|reflexivity|left; reflexivity|].
    rewrite H. reflexivity.
Defined.

(** *** Prefixes that match no rule, and the empty prefix *)




(** *** Operator prefixes *)

(** C1, as stated, fails: the prefix of the line below ends with a
    backslash and a word character, the backslash does not follow a slash,
    and yet the provider returns the standard modules, none of which is an
    operator item: the EXTENDS rule comes first. *)
Lemma C1_counterexample :
  getPrevText (document_of_line (lit "EXTENDS \e"))
    (end_of_line (lit "EXTENDS \e"))
  = lit "EXTENDS " ++ backslash :: lit "e"
  /\ forallb is_word (lit "e") = true
  /\ last (lit "EXTENDS ") <> Some slash
  /\ exists l,
       provideCompletionItems initial_catalog (sample_docInfos false)
         (document_of_line (lit "EXTENDS \e"))
         (end_of_line (lit "EXTENDS \e")) = Some l
       /\ newItem (lit "Bags") Module ∈ items l
       /\ ~ Forall (fun it => kind it = Some Operator) (items l).
Proof.
  split; [reflexivity|]. split; [reflexivity|]. split; [by vm_compute|].
  eexists. split; [reflexivity|]. split.
  - apply (bool_decide_unpack _). by vm_compute.
  - intros H. apply Forall_inv in H. discriminate H.
Qed.

(** A line separator (U+2028) before the backslash also keeps the operator
    rule from firing: the dot of the pattern does not match it. *)
Example line_separator_before_backslash :
  test re_isOperator (0x2028 :: lit "\e") = false
  /\ provideCompletionItems initial_catalog (sample_docInfos true)
       (document_of_line (0x2028 :: lit "\e"))
       (end_of_line (0x2028 :: lit "\e"))
     = Some (mkList (TLA_INNER_ITEMS initial_catalog
                     ++ symbolInfos (sample_docInfos true)
                          (document_of_line (0x2028 :: lit "\e"))) false).
Proof. split; reflexivity. Qed.

Lemma isBefore_same_line (l c c' : nat) :
  (c < c')%nat -> isBefore (mkPosition l c) (mkPosition l c') = true.
Proof.
  intros H. unfold isBefore. simpl.
  rewrite Nat.eqb_refl, (proj2 (Nat.ltb_lt c c') H). apply orb_true_r.
Qed.

(** C1, amended: when the text before the cursor ends with a backslash and
    word characters, the backslash does not follow a slash, no line
    terminator comes before it, and the text does not start with EXTENDS,
    CONSTANT or RECURSIVE, the provider returns exactly one item of kind
    Operator for each operator of [TLA_OPERATORS], every one with the range
    that starts on the cursor's line at the column of that backslash, which
    is the last backslash of the prefix, and ends at the cursor. *)
Theorem C1_operator_items_with_range cat docInfos document position
  (a w : jsstring) :
  getPrevText document position = a ++ backslash :: w ->
  forallb is_word w = true ->
  last a <> Some slash ->
  forallb is_dot a = true ->
  starts_with_declaration (a ++ backslash :: w) = false ->
  provideCompletionItems cat docInfos document position
  = Some (mkList
      (map (fun op =>
              mkItem (backslash :: op) (Some Operator) None
                (Some (Range_of (mkPosition (line position) (length a))
                         position)))
           TLA_OPERATORS) false)
  /\ getPrevText document position !! length a = Some backslash
  /\ backslash ∉ w.
Proof.
  intros Hprev Hw Hslash Hdot Hdecl. split; [|split].
  - pose proof (getPrevText_length document position) as Hlen.
    unfold provideCompletionItems. cbv zeta. rewrite Hprev in *.
    unfold starts_with_declaration in Hdecl.
    apply orb_false_iff in Hdecl as [[H1 H2]%orb_false_iff H3].
    rewrite H1, H2, H3. cbn [orb].
    rewrite (proj2 (isOperator_iff _)) by (by exists a, w).
    rewrite match_last_backslash by done.
    rewrite length_app in *. cbn [length] in *.
    replace (length a + S (length w) - S (length w))%nat with (length a)
      by lia.
    unfold mkRange. destruct position as [l c]. cbn [line character] in *.
    rewrite isBefore_same_line by lia. reflexivity.
  - rewrite Hprev. by apply list_lookup_middle.
  - intros Hin. by pose proof (forallb_elem _ _ _ Hw Hin).
Qed.

(** The theorem at the line "x \i" of the test suite: the range starts at
    column 2, where the backslash is, and ends at the cursor, column 4. *)
Lemma C1_witness :
  provideCompletionItems initial_catalog (sample_docInfos false)
    (document_of_line (lit "x \i")) (end_of_line (lit "x \i"))
  = Some (mkList
      (map (fun op =>
              mkItem (backslash :: op) (Some Operator) None
                (Some (Range_of (mkPosition 0 2) (mkPosition 0 4))))
           TLA_OPERATORS) false).
Proof.
  destruct (C1_operator_items_with_range initial_catalog
              (sample_docInfos false) (document_of_line (lit "x \i"))
              (end_of_line (lit "x \i")) (lit "x ") (lit "i")) as [H _];
    [reflexivity|reflexivity|discriminate|reflexivity|reflexivity|].
  exact H.
Defined.

(** The operator rule never falls back on the shared operator items: when
    [isOperator] holds, [prevText.match] finds the backslash. *)
Lemma operator_match_found (s : jsstring) :
  test re_isOperator s = true -> is_Some (match_ re_backslash_word s).
Proof.
  intros (a & w & -> & _ & _ & Hw)%isOperator_iff.
  rewrite match_last_backslash by done. by eexists.
Qed.

(** The other lines of the test suite: a backslash followed by a space gives
    the general items, a lone backslash the operators. *)
Example backslash_then_space :
  provideCompletionItems initial_catalog (sample_docInfos true)
    (document_of_line (lit "\ e")) (end_of_line (lit "\ e"))
  = Some (mkList (TLA_INNER_ITEMS initial_catalog
                  ++ symbolInfos (sample_docInfos true)
                       (document_of_line (lit "\ e"))) false).
Proof. reflexivity. Qed.

End Provider_claims.

(** * Further properties of the provider *)

(** ** The three patterns *)

Section Pattern_properties.

Implicit Types (s a w : jsstring) (c d : char).

(** The place where a trailing run of word characters starts is unique. *)
Lemma word_suffix_unique w w' : forall a a' c d,
  is_word c = false -> is_word d = false ->
  forallb is_word w = true -> forallb is_word w' = true ->
  a ++ c :: w = a' ++ d :: w' ->
  a = a' /\ c = d /\ w = w'.
Proof.
  induction a as [|x a IH]; intros a' c d Hc Hd Hw Hw' E.
  - destruct a' as [|y a']; simpl in E.
    + by simplify_eq.
    + simplify_eq.
      assert (d ∈ a' ++ d :: w') as Hin
        by (apply elem_of_app; right; apply list_elem_of_here).
      by rewrite (forallb_elem _ _ _ Hw Hin) in Hd.
  - destruct a' as [|y a']; simpl in E.
    + simplify_eq.
      assert (c ∈ a ++ c :: w) as Hin
        by (apply elem_of_app; right; apply list_elem_of_here).
      by rewrite (forallb_elem _ _ _ Hw' Hin) in Hc.
    + simplify_eq. destruct (IH a' c d) as (-> & -> & ->); done.
Qed.

(** X1: the operator test of line 172 holds exactly of the prefixes that
    split, in a unique way, into a part without line terminator that does
    not end with a slash, a backslash, and a run of word characters up to
    the end. *)
Theorem X1_isOperator_characterisation s :
  (test re_isOperator s = true <->
   exists a w, s = a ++ backslash :: w
               /\ forallb is_dot a = true
               /\ last a <> Some slash
               /\ forallb is_word w = true)
  /\ (forall a a' w w',
        s = a ++ backslash :: w -> s = a' ++ backslash :: w' ->
        forallb is_word w = true -> forallb is_word w' = true ->
        a = a' /\ w = w').
Proof.
  split; [apply isOperator_iff|].
  intros a a' w w' E E' Hw Hw'. rewrite E in E'.
  by destruct (word_suffix_unique w w' a a' backslash backslash) as (? & _ & ?).
Qed.

(** X2: whenever the operator test holds, [prevText.match] of line 178
    succeeds and finds the last backslash of the prefix: its index is the
    match position and the rest of the prefix is the matched text. The
    [return] of line 192 is therefore never reached. *)
Theorem X2_match_finds_last_backslash s :
  test re_isOperator s = true ->
  exists a w,
    s = a ++ backslash :: w
    /\ (backslash ∉ w)
    /\ match_ re_backslash_word s = Some (length a, backslash :: w).
Proof.
  intros (a & w & -> & _ & _ & Hw)%isOperator_iff.
  exists a, w. split; [done|]. split.
  - intros Hin. by pose proof (forallb_elem _ _ _ Hw Hin).
  - by apply match_last_backslash.
Qed.

Lemma X2_witness :
  exists a w,
    lit "x \i" = a ++ backslash :: w
    /\ (backslash ∉ w)
    /\ match_ re_backslash_word (lit "x \i") = Some (length a, backslash :: w).
Proof. apply X2_match_finds_last_backslash. reflexivity. Defined.

(** X3: the look-behind of line 172 keeps the conjunction sign apart: a
    prefix that ends with a slash, a backslash and word characters is never
    an operator prefix, whatever comes before. *)
Theorem X3_conjunction_is_not_operator a w :
  forallb is_word w = true ->
  test re_isOperator (a ++ slash :: backslash :: w) = false.
Proof.
  intros Hw. apply not_true_is_false.
  intros (a' & w' & E & _ & Hl & Hw')%isOperator_iff.
  replace (a ++ slash :: backslash :: w)
    with ((a ++ [slash]) ++ backslash :: w) in E by by rewrite <- app_assoc.
  destruct (word_suffix_unique w w' (a ++ [slash]) a' backslash backslash)
    as (<- & _ & _); try done.
  by rewrite last_snoc in Hl.
Qed.

Lemma X3_witness :
  test re_isOperator (lit "Foo == " ++ slash :: backslash :: lit "a") = false.
Proof. apply X3_conjunction_is_not_operator. reflexivity. Defined.

(** X4: the operator test needs the backslash right before the trailing
    word characters: a prefix whose trailing run of word characters comes
    after any other character (a space after the backslash, say), or that
    consists of word characters only, is not an operator prefix. *)
Theorem X4_operator_needs_adjacent_backslash s c w :
  forallb is_word w = true ->
  (is_word c = false -> c <> backslash ->
   test re_isOperator (s ++ c :: w) = false)
  /\ test re_isOperator w = false.
Proof.
  intros Hw. split.
  - intros Hc Hne. apply not_true_is_false.
    intros (a' & w' & E & _ & _ & Hw')%isOperator_iff.
    by destruct (word_suffix_unique w w' s a' c backslash) as (_ & ? & _).
  - apply not_true_is_false. intros Ho%isOperator_has_backslash.
    by pose proof (forallb_elem _ _ _ Hw Ho).
Qed.

Lemma X4_witness :
  test re_isOperator (lit "\" ++ space :: lit "e") = false
  /\ test re_isOperator (lit "e") = false.
Proof.
  destruct (X4_operator_needs_adjacent_backslash (lit "\") space (lit "e"))
    as [H1 H2]; [reflexivity|].
  split; [apply H1; [reflexivity|discriminate]|exact H2].
Defined.

(** X5: the new-line test of line 200 holds exactly of white space followed
    by letters, and the proof-step test of line 199 exactly of white space,
    a level in angle brackets with at least one digit, label characters, at
    least one white space, and letters. *)
Theorem X5_newLine_proofStep_characterisation s :
  (test re_isNewLine s = true <->
   exists ws al, s = ws ++ al
                 /\ forallb is_space ws = true
                 /\ forallb is_alpha al = true)
  /\ (test re_isProofStep s = true <->
      exists ws d ds lbl sp sps al,
        s = ws ++ lt_sign :: d :: ds ++ gt_sign :: lbl ++ sp :: sps ++ al
        /\ forallb is_space ws = true
        /\ is_digit d = true /\ forallb is_digit ds = true
        /\ forallb is_step_label lbl = true
        /\ is_space sp = true /\ forallb is_space sps = true
        /\ forallb is_alpha al = true).
Proof. split; [apply isNewLine_iff|apply isProofStep_iff]. Qed.

Lemma proofStep_not_newLine s :
  test re_isProofStep s = true -> test re_isNewLine s = false.
Proof.
  intros Hstep. apply not_true_is_false. intros Hnl.
  apply isProofStep_iff in Hstep
    as (ws & d & ds & lbl & sp & sps & al & -> & _).
  apply matchSeq_alphabet in Hnl.
  assert (lt_sign ∈ ws ++ lt_sign :: d :: ds ++ gt_sign :: lbl
                     ++ sp :: sps ++ al) as Hin
    by (apply elem_of_app; right; apply list_elem_of_here).
  by pose proof (forallb_elem _ _ _ Hnl Hin).
Qed.

(** X6: no prefix passes both the proof-step test and the new-line test,
    and none passes the operator test together with one of them: the order
    in which lines 201 to 205 try the first two does not matter. *)
Theorem X6_patterns_exclusive s :
  (test re_isProofStep s = true -> test re_isNewLine s = false)
  /\ (test re_isOperator s = true ->
      test re_isProofStep s = false /\ test re_isNewLine s = false).
Proof.
  split; [apply proofStep_not_newLine|].
  intros Hop. split; apply not_true_is_false; intros H.
  - apply isProofStep_not_operator in H. congruence.
  - apply isNewLine_not_operator in H. congruence.
Qed.

Lemma X6_witness :
  test re_isNewLine (lit "<1>. QE") = false
  /\ test re_isProofStep (lit "x \i") = false
  /\ test re_isNewLine (lit "x \i") = false.
Proof.
  split.
  - apply (proj1 (X6_patterns_exclusive (lit "<1>. QE"))). reflexivity.
  - apply (proj2 (X6_patterns_exclusive (lit "x \i"))). reflexivity.
Defined.

End Pattern_properties.

(** ** Resolution and the glyph table *)

Section Resolution_properties.

Implicit Types (item : CompletionItem) (enable useUnicode : bool).

Lemma mapKind_not_resolved (k : SymbolKind.t) :
  mapKind k <> Keyword /\ mapKind k <> Operator.
Proof. by destruct k. Qed.

(** X7: [resolveCompletionItem] always returns an item, and never changes
    its label, kind or range; an item that is neither a keyword nor an
    operator comes back unchanged. [mapKind] yields neither of these two
    kinds, so the item of a document symbol is never changed. *)
Theorem X7_resolver_writes_insertText_only enable item :
  (exists item',
     resolveCompletionItem enable item = Some item'
     /\ label item' = label item /\ kind item' = kind item
     /\ range item' = range item
     /\ (kind item <> Some Keyword -> kind item <> Some Operator ->
         item' = item))
  /\ (forall s : SymbolInformation,
        resolveCompletionItem enable
          (newItem (name s) (mapKind (symbolKind s)))
        = Some (newItem (name s) (mapKind (symbolKind s)))).
Proof.
  split.
  - destruct (resolveCompletionItem enable item) as [item'|] eqn:E.
    + exists item'. split; [done|].
      destruct (resolveCompletionItem_shape _ _ _ E) as [[= Hl Hk] Hr].
      repeat split; try done.
      intros H1 H2. rewrite resolveCompletionItem_other in E by done.
      by simplify_eq.
    + unfold resolveCompletionItem in E. by destruct (kind item) as [[]|].
  - intros s. apply resolveCompletionItem_other; simpl;
      destruct (mapKind_not_resolved (symbolKind s)); congruence.
Qed.

(** X8: for a label that starts with a backslash, the resolved text is the
    label itself followed by a space whenever the preference is off or the
    name has no glyph: stripping the backslash and putting it back is the
    identity. *)
Theorem X8_ascii_resolution_is_label item useUnicode (op : jsstring) :
  label item = backslash :: op ->
  useUnicode = false \/ TLA_UNICODE_OPERATORS !! op = None ->
  insertText (resolveOperatorCompletion item useUnicode)
  = Some (label item ++ [space]).
Proof.
  intros Hl H. rewrite resolveOperatorCompletion_insertText, Hl.
  destruct (_ !! _) as [g|] eqn:E; [|done].
  by destruct H as [-> | H].
Qed.

Lemma X8_witness :
  insertText (resolveOperatorCompletion (newItem (lit "\s") Operator) true)
  = Some (lit "\s" ++ [space]).
Proof.
  apply (X8_ascii_resolution_is_label (newItem (lit "\s") Operator) true
           (lit "s")); [reflexivity|].
  right. vm_compute. reflexivity.
Defined.

Lemma resolveOperatorCompletion_newItem (op : jsstring) useUnicode :
  insertText (resolveOperatorCompletion (newItem (backslash :: op) Operator)
                useUnicode) =
  Some (match TLA_UNICODE_OPERATORS !! op with
        | Some glyph =>
            if useUnicode then glyph ++ [space]
            else backslash :: op ++ [space]
        | None => backslash :: op ++ [space]
        end).
Proof.
  exact (resolveOperatorCompletion_insertText
           (newItem (backslash :: op) Operator) useUnicode).
Qed.

(** X9: every operator of [TLA_OPERATORS] has a glyph in
    [TLA_UNICODE_OPERATORS]; under the Unicode preference the resolved text
    of its item is that glyph and a space, and holds no backslash. *)
Theorem X9_catalog_operators_have_glyphs (op : jsstring) :
  op ∈ TLA_OPERATORS ->
  exists glyph,
    TLA_UNICODE_OPERATORS !! op = Some glyph
    /\ insertText (resolveOperatorCompletion
                    (newItem (backslash :: op) Operator) true)
       = Some (glyph ++ [space])
    /\ (backslash ∉ glyph ++ [space]).
Proof.
  intros Hop%list_elem_of_In.
  assert (forallb (fun op =>
            match TLA_UNICODE_OPERATORS !! op with
            | Some g => negb (existsb (N.eqb backslash) (g ++ [space]))
            | None => false
            end) TLA_OPERATORS = true) as Hall by (vm_compute; reflexivity).
  pose proof (proj1 (forallb_forall _ _) Hall _ Hop) as H. cbv beta in H.
  destruct (TLA_UNICODE_OPERATORS !! op) as [g|] eqn:E; [|done].
  exists g. split; [done|]. split.
  - by rewrite resolveOperatorCompletion_newItem, E.
  - intros Hin%list_elem_of_In. apply negb_true_iff in H.
    assert (existsb (N.eqb backslash) (g ++ [space]) = true) as Hex.
    { apply existsb_exists. exists backslash. split; [done|].
      apply N.eqb_refl. }
    congruence.
Qed.

Lemma X9_witness :
  exists glyph,
    TLA_UNICODE_OPERATORS !! lit "vDash" = Some glyph
    /\ insertText (resolveOperatorCompletion
                    (newItem (backslash :: lit "vDash") Operator) true)
       = Some (glyph ++ [space])
    /\ (backslash ∉ glyph ++ [space]).
Proof.
  apply X9_catalog_operators_have_glyphs.
  apply (bool_decide_unpack _). by vm_compute.
Defined.

(** X10: no key occurs twice among the entries the map is built from, and
    [TLA_UNICODE_OPERATORS.get] finds exactly these entries: no entry hides
    another. *)
Theorem X10_glyph_table_lookup (k g : jsstring) :
  NoDup (map fst TLA_UNICODE_OPERATORS_entries)
  /\ (TLA_UNICODE_OPERATORS !! k = Some g
      <-> (k, g) ∈ TLA_UNICODE_OPERATORS_entries).
Proof.
  split; [apply (bool_decide_unpack _); by vm_compute|].
  split; [apply new_Map_elem|].
  intros Hin%list_elem_of_In.
  assert (forallb (fun kv : jsstring * jsstring =>
            bool_decide (TLA_UNICODE_OPERATORS !! kv.1 = Some kv.2))
            TLA_UNICODE_OPERATORS_entries = true) as Hall
    by (vm_compute; reflexivity).
  pose proof (proj1 (forallb_forall _ _) Hall _ Hin) as H.
  by apply bool_decide_eq_true in H.
Qed.

End Resolution_properties.

(** ** The shared arrays under resolutions *)

Section Shared_arrays.

Variable enable : bool.

Implicit Types (cat : Catalog) (a b : shared_array) (item : CompletionItem).

Lemma resolved_eq item item' :
  resolveCompletionItem enable item = Some item' -> resolved enable item = item'.
Proof. unfold resolved. by intros ->. Qed.

Lemma resolved_shape item :
  shape (resolved enable item) = shape item
  /\ range (resolved enable item) = range item.
Proof.
  unfold resolved.
  destruct (resolveCompletionItem enable item) as [item'|] eqn:E; [|done].
  by apply resolveCompletionItem_shape in E.
Qed.

Lemma resolved_idem item :
  resolved enable (resolved enable item) = resolved enable item.
Proof.
  unfold resolved at 2 3.
  destruct (resolveCompletionItem enable item) as [item'|] eqn:E; simpl.
  - apply resolved_eq. by apply (resolveCompletionItem_fixed _ item).
  - unfold resolved. by rewrite E.
Qed.

Lemma alter_lookup_insert {A} (f : A -> A) (l : list A) : forall i x,
  l !! i = Some x -> alter f i l = <[i := f x]> l.
Proof.
  induction l as [|y l IH]; intros [|i] x H; simplify_eq/=; [done|].
  f_equal. by apply IH.
Qed.

Lemma write_read a cat : write_array a (read_array a cat) cat = cat.
Proof. by destruct a, cat. Qed.

Lemma write_array_commute a b l l' cat :
  a <> b ->
  write_array a l (write_array b l' cat)
  = write_array b l' (write_array a l cat).
Proof. by destruct a, b. Qed.

Lemma initial_items_fresh a item :
  item ∈ read_array a initial_catalog ->
  insertText item = None /\ range item = None.
Proof.
  intros H%list_elem_of_In.
  destruct a; apply in_map_iff in H as (w & <- & _); done.
Qed.

(** A step of the resolution relation is a call of [resolve_at] at an index
    within the array. *)
Lemma resolve_step_iff cat cat' :
  resolve_step enable cat cat' <->
  exists a i, (i < length (read_array a cat))%nat
              /\ cat' = resolve_at enable a i cat.
Proof.
  split.
  - intros [cat0 a i item item' Hi Hr]. exists a, i. split.
    + by eapply lookup_lt_Some.
    + unfold resolve_at.
      by rewrite (alter_lookup_insert _ _ _ _ Hi), (resolved_eq _ _ Hr).
  - intros (a & i & Hi & ->).
    destruct (lookup_lt_is_Some_2 _ _ Hi) as [item Hitem].
    unfold resolve_at. rewrite (alter_lookup_insert _ _ _ _ Hitem).
    apply (resolve_shared enable cat a i item); [done|].
    unfold resolved, resolveCompletionItem.
    by destruct (kind item) as [[]|].
Qed.

Lemma resolve_at_out_of_range a i cat :
  (length (read_array a cat) <= i)%nat -> resolve_at enable a i cat = cat.
Proof.
  intros H. unfold resolve_at.
  assert (alter (resolved enable) i (read_array a cat) = read_array a cat)
    as ->; [|apply write_read].
  apply list_eq. intros j. destruct (decide (i = j)) as [<-|Hne].
  - rewrite list_lookup_alter_eq. by rewrite (lookup_ge_None_2 _ _ H).
  - by rewrite list_lookup_alter_ne.
Qed.

Lemma reachable_resolve_at a i cat :
  reachable enable cat -> reachable enable (resolve_at enable a i cat).
Proof.
  intros H. destruct (decide (i < length (read_array a cat))%nat) as [Hi|Hi].
  - eapply rtc_r; [exact H|]. apply resolve_step_iff. eauto.
  - rewrite resolve_at_out_of_range by lia. done.
Qed.

(** X11: in every state the shared arrays can reach by resolutions, each
    array has the length it was built with, and each of its items has the
    label and the kind it was built with and no range; the item is either
    as it was built (no [insertText]) or as one resolution leaves it. *)
Theorem X11_shared_items_invariant cat a :
  reachable enable cat ->
  length (read_array a cat) = length (read_array a initial_catalog)
  /\ forall i item,
       read_array a cat !! i = Some item ->
       exists item0,
         read_array a initial_catalog !! i = Some item0
         /\ insertText item0 = None
         /\ label item = label item0 /\ kind item = kind item0
         /\ range item = None
         /\ (item = item0 \/ item = resolved enable item0).
Proof.
  intros Hinv%reachable_inv. specialize (Hinv a). split.
  - symmetry. by eapply Forall2_length.
  - intros i item Hi.
    destruct (Forall2_lookup_r _ _ _ _ _ Hinv Hi) as (item0 & Hi0 & Hfr).
    exists item0.
    destruct (initial_items_fresh a item0) as [Ht Hr];
      [by eapply list_elem_of_lookup_2|].
    split; [done|]. split; [done|].
    destruct Hfr as [->|Hres]; [by auto|].
    destruct (resolveCompletionItem_shape _ _ _ Hres) as [[= Hl Hk] Hrg].
    repeat split; try done; [congruence|].
    right. symmetry. by apply resolved_eq.
Qed.

(** X12: resolving the same shared item twice is the same as resolving it
    once, and two resolutions give the same arrays in either order. *)
Theorem X12_resolutions_idempotent_commute cat a b (i j : nat) :
  resolve_at enable a i (resolve_at enable a i cat)
  = resolve_at enable a i cat
  /\ resolve_at enable a i (resolve_at enable b j cat)
     = resolve_at enable b j (resolve_at enable a i cat).
Proof.
  split.
  - unfold resolve_at. rewrite read_write_same, write_write.
    rewrite list_alter_alter_eq. f_equal.
    apply list_alter_ext; [|done]. intros x _. apply resolved_idem.
  - destruct (decide (a = b)) as [<-|Hab].
    + destruct (decide (i = j)) as [<-|Hij]; [done|].
      unfold resolve_at. rewrite !read_write_same, !write_write.
      by rewrite list_alter_alter_ne.
    + unfold resolve_at.
      rewrite (read_write_other b a) by done.
      rewrite (read_write_other a b) by done.
      by apply write_array_commute.
Qed.

End Shared_arrays.

(** The invariant on the general keywords after the resolution of LET. *)
Lemma X11_witness :
  length (read_array OtherKeywordItems catalog_after_LET)
  = length (read_array OtherKeywordItems initial_catalog)
  /\ forall i item,
       read_array OtherKeywordItems catalog_after_LET !! i = Some item ->
       exists item0,
         read_array OtherKeywordItems initial_catalog !! i = Some item0
         /\ insertText item0 = None
         /\ label item = label item0 /\ kind item = kind item0
         /\ range item = None
         /\ (item = item0 \/ item = resolved false item0).
Proof.
  apply (X11_shared_items_invariant false). apply reachable_after_LET.
Defined.

(** ** The provider on every input *)

Section Provider_properties.

Variable enable : bool.

Implicit Types (cat : Catalog) (docInfos : TlaDocumentInfos).
Implicit Types (document : TextDocument) (position : Position).
Implicit Types (it : CompletionItem) (ws : list jsstring).

Lemma map_alter_invariant {A B} (f : A -> B) (g : A -> A) (l : list A) :
  (forall x, f (g x) = f x) -> forall i, map f (alter g i l) = map f l.
Proof.
  intros H. induction l as [|x l IH]; intros [|i]; simpl; [done..| |].
  - f_equal. apply H.
  - f_equal. apply IH.
Qed.

Lemma provide_congruence {B} (f : CompletionItem -> B) cat cat' docInfos
  document position :
  (forall b, map f (read_array b cat) = map f (read_array b cat')) ->
  (fun l => (map f (items l), isIncomplete l))
    <$> provideCompletionItems cat docInfos document position
  = (fun l => (map f (items l), isIncomplete l))
      <$> provideCompletionItems cat' docInfos document position.
Proof.
  intros H. unfold provideCompletionItems. cbv zeta.
  pose proof (H StartingKeywordItems) as H1.
  pose proof (H ProofStartingKeywordItems) as H2.
  pose proof (H OtherKeywordItems) as H3.
  pose proof (H ConstItems) as H4.
  pose proof (H OperatorItems) as H5.
  pose proof (H StdModuleItems) as H6.
  simpl in H1, H2, H3, H4, H5, H6.
  repeat match goal with
         | |- context [if ?b then _ else _] => destruct b
         | |- context [match ?o with Some _ => _ | None => _ end] =>
             destruct o as [[? ?]|]
         end;
    cbn [fmap option_fmap option_map items isIncomplete];
    unfold TLA_INNER_ITEMS; rewrite ?map_app; congruence.
Qed.

(** X13: a resolution of a shared item, in whatever state the arrays are,
    changes nothing of what a later request shows: the provider returns the
    same labels, kinds and ranges, in the same order, with the same
    completeness flag. *)
Theorem X13_requests_unaffected_by_resolutions cat (a : shared_array)
  (i : nat) docInfos document position :
  visible <$> provideCompletionItems (resolve_at enable a i cat) docInfos
                document position
  = visible <$> provideCompletionItems cat docInfos document position.
Proof.
  apply (provide_congruence (fun it => (label it, kind it, range it))).
  intros b. unfold resolve_at. destruct (decide (a = b)) as [<-|Hne].
  - rewrite read_write_same. apply map_alter_invariant. intros x.
    destruct (resolved_shape enable x) as [[= Hl Hk] Hr]. congruence.
  - by rewrite read_write_other.
Qed.

Lemma symbolInfos_not_operator docInfos document it :
  it ∈ symbolInfos docInfos document ->
  kind it <> Some Operator /\ range it = None.
Proof.
  intros Hit%list_elem_of_In. unfold symbolInfos in Hit.
  apply in_map_iff in Hit as (s & <- & _). simpl.
  split; [|done]. by destruct (symbolKind s).
Qed.

Lemma reachable_item cat (a : shared_array) it :
  reachable enable cat -> it ∈ read_array a cat ->
  range it = None
  /\ exists it0, it0 ∈ read_array a initial_catalog /\ shape it = shape it0.
Proof.
  intros Hcat (i & Hi)%list_elem_of_lookup_1.
  destruct (Forall2_lookup_r _ _ _ _ _ (reachable_inv enable cat Hcat a) Hi)
    as (it0 & Hi0 & Hfr).
  assert (it0 ∈ read_array a initial_catalog) as Hin
    by by eapply list_elem_of_lookup_2.
  destruct (initial_items_fresh a it0 Hin) as [_ Hr0].
  split; [|exists it0; split; [done|by eapply fresh_or_resolved_shape]].
  destruct Hfr as [->|Hres]; [done|].
  apply resolveCompletionItem_shape in Hres as [_ Hr]. congruence.
Qed.

Lemma reachable_item_not_operator cat (a : shared_array) it :
  a <> OperatorItems ->
  reachable enable cat -> it ∈ read_array a cat ->
  range it = None /\ kind it <> Some Operator.
Proof.
  intros Ha Hcat Hit.
  destruct (reachable_item cat a it Hcat Hit) as (Hr & it0 & Hit0 & Hs).
  split; [done|]. injection Hs as _ ->.
  apply list_elem_of_In in Hit0.
  destruct a; try done; apply in_map_iff in Hit0 as (w & <- & _); done.
Qed.



End Provider_properties.


(** ** The operator rule and the ranges *)

Section Provider_ranges.

Variable enable : bool.

Implicit Types (cat : Catalog) (docInfos : TlaDocumentInfos).
Implicit Types (document : TextDocument) (position : Position).
Implicit Types (it : CompletionItem).

(** The provider when its operator rule fires. *)
Lemma provide_operator cat docInfos document position (a w : jsstring) :
  getPrevText document position = a ++ backslash :: w ->
  forallb is_word w = true ->
  starts_with_declaration (getPrevText document position) = false ->
  test re_isOperator (getPrevText document position) = true ->
  provideCompletionItems cat docInfos document position
  = Some (mkList
      (map (fun op =>
              mkItem (backslash :: op) (Some Operator) None
                (Some (Range_of (mkPosition (line position) (length a))
                         position)))
           TLA_OPERATORS) false).
Proof.
  intros Hprev Hw Hdecl Hop.
  pose proof (getPrevText_length document position) as Hlen.
  unfold provideCompletionItems. cbv zeta.
  unfold starts_with_declaration in Hdecl.
  apply orb_false_iff in Hdecl as [[H1 H2]%orb_false_iff H3].
  rewrite H1, H2, H3, Hop. cbn [orb]. rewrite Hprev in *.
  rewrite match_last_backslash by done.
  rewrite length_app in *. cbn [length] in *.
  replace (length a + S (length w) - S (length w))%nat with (length a)
    by lia.
  unfold mkRange. destruct position as [l c]. cbn [line character] in *.
  rewrite isBefore_same_line by lia. reflexivity.
Qed.

(** X15: when the operator rule fires, every returned item is an operator
    item whose range ends at the cursor and starts on the same line at a
    column from which the text before the cursor is exactly a backslash
    followed by word characters: accepting an item replaces the backslash
    together with the letters typed after it. *)
Theorem X15_range_covers_backslash_and_word cat docInfos document position :
  starts_with_declaration (getPrevText document position) = false ->
  test re_isOperator (getPrevText document position) = true ->
  exists l w,
    provideCompletionItems cat docInfos document position = Some l
    /\ forallb is_word w = true
    /\ map label (items l) = map (cons backslash) TLA_OPERATORS
    /\ forall it, it ∈ items l ->
         kind it = Some Operator
         /\ exists r,
              range it = Some r
              /\ end_ r = position
              /\ line (start r) = line position
              /\ drop (character (start r)) (getPrevText document position)
                 = backslash :: w.
Proof.
  intros Hdecl Hop.
  destruct (proj1 (isOperator_iff _) Hop) as (a & w & Hprev & _ & _ & Hw).
  rewrite (provide_operator cat docInfos document position a w) by done.
  eexists _, w. split; [reflexivity|]. split; [done|]. cbn [items]. split.
  - by rewrite map_map.
  - intros it Hit%list_elem_of_In. apply in_map_iff in Hit as (op & <- & _).
    split; [done|]. eexists. split; [reflexivity|]. cbn.
    split; [done|]. split; [done|].
    rewrite Hprev. by rewrite drop_app_length.
Qed.

(** X16: the rules that come first do not look at the document info, nor
    at the state of the shared arrays: for a prefix that starts with
    EXTENDS, CONSTANT or RECURSIVE, or that passes the operator test, the
    result is the same whatever the symbols are and whether or not the
    cursor is in the PlusCal block. *)
Theorem X16_first_rules_ignore_document_info cat cat' docInfos docInfos'
  document position :
  reachable enable cat -> reachable enable cat' ->
  starts_with_declaration (getPrevText document position) = true
  \/ test re_isOperator (getPrevText document position) = true ->
  provideCompletionItems cat docInfos document position
  = provideCompletionItems cat' docInfos' document position.
Proof.
  intros Hcat Hcat' H.
  destruct (starts_with_declaration (getPrevText document position)) eqn:Hd.
  - unfold provideCompletionItems. cbv zeta.
    unfold starts_with_declaration in Hd.
    rewrite (reachable_std_modules enable cat Hcat).
    rewrite (reachable_std_modules enable cat' Hcat').
    destruct (startsWith (lit "EXTENDS") _); [done|].
    cbn [orb] in Hd. by rewrite Hd.
  - destruct H as [H|Hop]; [done|].
    destruct (proj1 (isOperator_iff _) Hop) as (a & w & Hprev & _ & _ & Hw).
    by rewrite !(provide_operator _ _ document position a w).
Qed.

(** X17: in every state of the shared arrays and for every input, the
    provider returns a complete list ([isIncomplete] is false) in which the
    items with a range are exactly the items of kind Operator. *)
Theorem X17_ranges_exactly_on_operators cat docInfos document position :
  reachable enable cat ->
  exists l,
    provideCompletionItems cat docInfos document position = Some l
    /\ isIncomplete l = false
    /\ forall it, it ∈ items l ->
         (kind it = Some Operator <-> is_Some (range it)).
Proof.
  intros Hcat.
  assert (forall it, range it = None /\ kind it <> Some Operator ->
            (kind it = Some Operator <-> is_Some (range it))) as Hno.
  { intros it [Hr Hk]. rewrite Hr. split; [done|]. by intros [? [=]]. }
  destruct (starts_with_declaration (getPrevText document position)) eqn:Hd.
  - unfold provideCompletionItems. cbv zeta.
    unfold starts_with_declaration in Hd.
    destruct (startsWith (lit "EXTENDS") _).
    + eexists. split; [reflexivity|]. split; [done|]. cbn [items].
      intros it Hit. apply Hno.
      by apply (reachable_item_not_operator enable cat StdModuleItems).
    + cbn [orb] in Hd. rewrite Hd. eexists. split; [reflexivity|].
      split; [done|]. intros it Hit. by apply elem_of_nil in Hit.
  - destruct (test re_isOperator (getPrevText document position)) eqn:Hop.
    + destruct (proj1 (isOperator_iff _) Hop) as (a & w & Hprev & _ & _ & Hw).
      rewrite (provide_operator cat docInfos document position a w) by done.
      eexists. split; [reflexivity|]. split; [done|]. cbn [items].
      intros it Hit%list_elem_of_In. apply in_map_iff in Hit as (op & <- & _).
      simpl. split; [by eexists|done].
    + rewrite provide_general by done.
      eexists. split; [reflexivity|]. split; [done|]. cbn [items]. cbv zeta.
      assert (forall it, it ∈ TLA_INNER_ITEMS cat
                              ++ symbolInfos docInfos document ->
                range it = None /\ kind it <> Some Operator) as Hgen.
      { intros it [[Hit|Hit]%elem_of_app|Hit]%elem_of_app.
        - by apply (reachable_item_not_operator enable cat OtherKeywordItems).
        - by apply (reachable_item_not_operator enable cat ConstItems).
        - apply symbolInfos_not_operator in Hit. tauto. }
      intros it Hit. apply Hno.
      destruct (negb _); [|by apply Hgen].
      destruct (test re_isProofStep _); [|destruct (test re_isNewLine _)];
        [apply elem_of_app in Hit as [Hit|Hit]; [by apply Hgen|]..
        |by apply Hgen].
      * by apply (reachable_item_not_operator enable cat
                    ProofStartingKeywordItems).
      * by apply (reachable_item_not_operator enable cat
                    StartingKeywordItems).
Qed.

End Provider_ranges.

(** The theorem at the line "x \i" of the test suite. *)
Lemma X15_witness :
  exists l w,
    provideCompletionItems initial_catalog (sample_docInfos false)
      (document_of_line (lit "x \i")) (end_of_line (lit "x \i")) = Some l
    /\ forallb is_word w = true
    /\ map label (items l) = map (cons backslash) TLA_OPERATORS
    /\ forall it, it ∈ items l ->
         kind it = Some Operator
         /\ exists r,
              range it = Some r
              /\ end_ r = end_of_line (lit "x \i")
              /\ line (start r) = line (end_of_line (lit "x \i"))
              /\ drop (character (start r))
                   (getPrevText (document_of_line (lit "x \i"))
                      (end_of_line (lit "x \i")))
                 = backslash :: w.
Proof.
  apply (X15_range_covers_backslash_and_word initial_catalog
           (sample_docInfos false) (document_of_line (lit "x \i"))
           (end_of_line (lit "x \i"))); reflexivity.
Defined.

(** The theorem at an EXTENDS line, inside and outside the PlusCal block,
    before and after a resolution. *)
Lemma X16_witness :
  provideCompletionItems initial_catalog (sample_docInfos false)
    (document_of_line (lit "EXTENDS Na")) (end_of_line (lit "EXTENDS Na"))
  = provideCompletionItems catalog_after_LET (sample_docInfos true)
      (document_of_line (lit "EXTENDS Na")) (end_of_line (lit "EXTENDS Na")).
Proof.
  apply (X16_first_rules_ignore_document_info false);
    [apply rtc_refl|apply reachable_after_LET|left; reflexivity].
Defined.

(** The theorem on an empty line after the resolution of LET. *)
Lemma X17_witness :
  exists l,
    provideCompletionItems catalog_after_LET (sample_docInfos false)
      (document_of_line []) (end_of_line []) = Some l
    /\ isIncomplete l = false
    /\ forall it, it ∈ items l ->
         (kind it = Some Operator <-> is_Some (range it)).
Proof.
  apply (X17_ranges_exactly_on_operators false). apply reachable_after_LET.
Defined.

(** ** The PlusCal flag and the labels *)

Section Provider_lists.

Variable enable : bool.

Implicit Types (cat : Catalog) (docInfos : TlaDocumentInfos).
Implicit Types (document : TextDocument) (position : Position).

(** X18: being in the PlusCal block never adds a suggestion. For the same
    catalog, document, position and symbols, the list returned when the
    cursor is in the block is an initial part of the list returned when it
    may be outside. *)
Theorem X18_plusCal_only_removes cat docInfos docInfos' document position :
  symbols (get docInfos (uri document))
  = symbols (get docInfos' (uri document)) ->
  isPlusCalAt (get docInfos (uri document)) position = true ->
  exists l l',
    provideCompletionItems cat docInfos document position = Some l
    /\ provideCompletionItems cat docInfos' document position = Some l'
    /\ items l `prefix_of` items l'.
Proof.
  intros Hsym Hplus. unfold provideCompletionItems. cbv zeta.
  rewrite Hplus, <- Hsym. cbn [negb].
  repeat match goal with
         | |- context [if ?b then _ else _] => destruct b
         | |- context [match ?o with Some _ => _ | None => _ end] =>
             destruct o as [[? ?]|]
         end;
    eexists _, _; (split; [reflexivity|]); (split; [reflexivity|]);
    cbn [items]; first [done | by apply prefix_app_r].
Qed.

Lemma shared_labels cat (a : shared_array) :
  reachable enable cat ->
  map label (read_array a cat) = map label (read_array a initial_catalog).
Proof.
  intros H%reachable_inv.
  pose proof (catalog_inv_shape enable cat a H) as Hs.
  apply (f_equal (map fst)) in Hs. by rewrite !map_map in Hs.
Qed.

(** X19: when the document has no symbols, no list the provider returns
    offers the same label twice, in any state of the shared arrays: the
    keyword classes, the constants, the operators and the standard modules
    have pairwise distinct names. *)
Theorem X19_no_duplicate_labels cat docInfos document position :
  reachable enable cat ->
  default [] (symbols (get docInfos (uri document))) = [] ->
  exists l,
    provideCompletionItems cat docInfos document position = Some l
    /\ NoDup (map label (items l)).
Proof.
  intros Hcat Hsym.
  pose proof (shared_labels cat StartingKeywordItems Hcat) as L1.
  pose proof (shared_labels cat ProofStartingKeywordItems Hcat) as L2.
  pose proof (shared_labels cat OtherKeywordItems Hcat) as L3.
  pose proof (shared_labels cat ConstItems Hcat) as L4.
  pose proof (shared_labels cat OperatorItems Hcat) as L5.
  pose proof (shared_labels cat StdModuleItems Hcat) as L6.
  cbn [read_array] in L1, L2, L3, L4, L5, L6.
  unfold provideCompletionItems. cbv zeta. rewrite Hsym.
  repeat match goal with
         | |- context [if ?b then _ else _] => destruct b
         | |- context [match ?o with Some _ => _ | None => _ end] =>
             destruct o as [[? ?]|]
         end;
    (eexists; split; [reflexivity|]); cbn [items map];
    unfold TLA_INNER_ITEMS; rewrite ?map_app, ?map_map, ?L1, ?L2, ?L3, ?L4,
      ?L5, ?L6;
    apply (bool_decide_unpack _); by vm_compute.
Qed.

End Provider_lists.

(** The theorem at the proof-step line "<1>. " in and out of the block. *)
Lemma X18_witness :
  exists l l',
    provideCompletionItems initial_catalog (sample_docInfos true)
      (document_of_line (lit "<1>. ")) (end_of_line (lit "<1>. ")) = Some l
    /\ provideCompletionItems initial_catalog (sample_docInfos false)
         (document_of_line (lit "<1>. ")) (end_of_line (lit "<1>. "))
       = Some l'
    /\ items l `prefix_of` items l'.
Proof.
  apply (X18_plusCal_only_removes initial_catalog (sample_docInfos true)
           (sample_docInfos false)); reflexivity.
Defined.

(** The theorem on an empty line of a document without symbols, after the
    resolution of LET. *)
Lemma X19_witness :
  exists l,
    provideCompletionItems catalog_after_LET
      (mkDocInfos (fun _ => mkDocInfo None (fun _ => false)))
      (document_of_line []) (end_of_line []) = Some l
    /\ NoDup (map label (items l)).
Proof.
  apply (X19_no_duplicate_labels false);
    [apply reachable_after_LET|reflexivity].
Defined.

(** ** The characterisations at sample inputs *)

(** X1 at the prefix "x \i": it splits at its backslash, so it passes the
    operator test, and the split is the only one. *)
Lemma X1_witness :
  test re_isOperator (lit "x \i") = true
  /\ forall a w,
       lit "x \i" = a ++ backslash :: w -> forallb is_word w = true ->
       a = lit "x " /\ w = lit "i".
Proof.
  destruct (X1_isOperator_characterisation (lit "x \i")) as [Hiff Huniq].
  split.
  - apply Hiff. exists (lit "x "), (lit "i").
    split; [reflexivity|]. split; [reflexivity|].
    split; [discriminate|reflexivity].
  - intros a w E Hw.
    apply (Huniq a (lit "x ") w (lit "i")); [exact E|reflexivity|exact Hw|].
    reflexivity.
Defined.

(** X5 at the prefixes "  TH" and "<12>.4 t", from their parts. *)
Lemma X5_witness :
  test re_isNewLine (lit "  TH") = true
  /\ test re_isProofStep (lit "<12>.4 t") = true.
Proof.
  split.
  - apply (proj1 (X5_newLine_proofStep_characterisation (lit "  TH"))).
    exists (lit "  "), (lit "TH"). repeat split; reflexivity.
  - apply (proj2 (X5_newLine_proofStep_characterisation (lit "<12>.4 t"))).
    exists [], 49, (lit "2"), (lit ".4"), space, [], (lit "t").
    repeat split; reflexivity.
Defined.

(** X7 at the item of the symbol Foo of the test suite. *)
Lemma X7_witness :
  resolveCompletionItem true (newItem (lit "Foo") Field)
  = Some (newItem (lit "Foo") Field).
Proof.
  exact (proj2 (X7_resolver_writes_insertText_only true
                  (newItem (lit "Foo") Field))
           (mkSymbol (lit "Foo") SymbolKind.Field)).
Defined.

(** X10 at the entry of "in". *)
Lemma X10_witness : TLA_UNICODE_OPERATORS !! lit "in" = Some [0x2208].
Proof.
  apply (proj2 (proj2 (X10_glyph_table_lookup (lit "in") [0x2208]))).
  apply (bool_decide_unpack _). by vm_compute.
Defined.
